(** * The BPF ipcache listener of the datapath (package [ipcache])

    A shallow embedding of [OnIPIdentityCacheChange],
    [updateStaleEntriesFunction] and [garbageCollect], with the Go
    standard library's [net.IP] helpers they call, and the properties of
    the synchronisation between the in-memory IP-identity cache and the
    BPF map. *)

From Stdlib Require Import ZArith Lia.
From Stdlib.Strings Require Import Byte.
From stdpp Require Import base option list strings pretty countable gmap fin_maps.

#[global] Instance byte_eq_dec : EqDecision byte := Byte.byte_eq_dec.

(** ** Go's [net] package: the parts of [net.IP] the listener uses *)

Module net.

(** [net.IP] is a byte slice; [None] is the nil slice. *)
Definition IP : Type := option (list byte).
Definition IPMask : Type := option (list byte).

Record IPNet : Type := { IPNet_IP : IP; IPNet_Mask : IPMask }.

Definition IPv4len : nat := 4.
Definition IPv6len : nat := 16.

Definition bytes (ip : IP) : list byte := default [] ip.
Definition len (ip : IP) : nat := length (bytes ip).

Definition v4InV6Prefix : list byte :=
  [x00; x00; x00; x00; x00; x00; x00; x00; x00; x00; xff; xff].

Definition isZeros (p : list byte) : bool :=
  forallb (fun b => bool_decide (b = x00)) p.

(** [ip[i] == b], for an index the caller has checked to be in range. *)
Definition byteAt (p : list byte) (i : nat) (b : byte) : bool :=
  bool_decide (p !! i = Some b).

Definition To4 (ip : IP) : IP :=
  if bool_decide (len ip = IPv4len) then ip
  else if bool_decide (len ip = IPv6len)
          && isZeros (take 10 (bytes ip))
          && byteAt (bytes ip) 10 xff
          && byteAt (bytes ip) 11 xff
  then Some (take 4 (drop 12 (bytes ip)))
  else None.

Definition bytesEqual (a b : list byte) : bool := bool_decide (a = b).

Definition Equal (ip x : IP) : bool :=
  if bool_decide (len ip = len x) then bytesEqual (bytes ip) (bytes x)
  else if bool_decide (len ip = IPv4len) && bool_decide (len x = IPv6len)
  then bytesEqual (take 12 (bytes x)) v4InV6Prefix
       && bytesEqual (bytes ip) (drop 12 (bytes x))
  else if bool_decide (len ip = IPv6len) && bool_decide (len x = IPv4len)
  then bytesEqual (take 12 (bytes ip)) v4InV6Prefix
       && bytesEqual (drop 12 (bytes ip)) (bytes x)
  else false.

End net.

(** Go's builtin [copy(dst, src)]: the first [min (len dst) (len src)]
    elements of [dst] are overwritten, the rest is kept. *)
Definition copy {A} (dst src : list A) : list A :=
  let n := Nat.min (length dst) (length src) in
  take n src ++ drop n dst.

(** ** Identities, map values, events *)

Definition error : Type := string.

(** [identity.NumericIdentity], an unsigned 32-bit integer. *)
Definition NumericIdentity : Type := Z.

Definition uint32 (z : Z) : Z := (z mod 2 ^ 32)%Z.

(** Modelled from the spec: [ipcache.CacheModification], declared in
    pkg/ipcache; the listener distinguishes [Upsert], [Delete] and any other
    kind. *)
Inductive CacheModification : Type :=
| Upsert
| Delete
| Unsupported (kind : string).

(** Modelled from the spec: [ipcacheMap.RemoteEndpointInfo], declared in
    pkg/maps/ipcache: a 32-bit identity and a 4-byte tunnel endpoint, zero
    when there is no tunnel. *)
Record RemoteEndpointInfo : Type := {
  SecurityIdentity : Z;
  TunnelEndpoint : list byte
}.

Definition zeroIPv4 : list byte := [x00; x00; x00; x00].

Inductive Level : Type := Debug | Warning.

Section Datapath.

(** The key codec of pkg/maps/ipcache and the provenance tags of
    pkg/ipcache are declared outside this package; they are taken as
    parameters. *)
Context {Key : Type} `{Countable Key}.
Variable NewKey : net.IP -> net.IPMask -> Key.
Variable KeyString : Key -> string.

Context {source : Type} `{EqDecision source}.
Variables FromKVStore FromAgentLocal : source.

(** [ipcache.Identity]: what a lookup in the IP-identity cache returns. *)
Record Identity : Type := {
  ID : NumericIdentity;
  Source : source
}.

(** What the listener does to its surroundings, in program order: taking
    and releasing the read lock of the cache, the point operations on the
    map with their results, each call of the callback of a scan, the return
    of a scan with its result, and the log messages. *)
Inductive Event : Type :=
| EvRLock
| EvRUnlock
| EvUpdate (k : Key) (v : RemoteEndpointInfo) (r : option error)
| EvDelete (k : Key) (r : option error)
| EvCallback (k : Key) (v : RemoteEndpointInfo)
| EvDump (r : option error)
| EvLog (lvl : Level) (msg : string) (err : option error).

(** The state the listener runs in: the BPF map behind [l.bpfMap], the
    global [ipcache.IPIdentityCache] as its lookup function, the address
    [node.GetExternalIPv4] returns, the outcomes the kernel will give to
    the coming map operations, and the events so far. *)
Record World : Type := {
  bpfMap : gmap Key RemoteEndpointInfo;
  LookupByPrefixRLocked : string -> Identity * bool;
  GetExternalIPv4 : net.IP;
  faults : list (option error);
  trace : list Event
}.

Definition emit (e : Event) (w : World) : World :=
  {| bpfMap := bpfMap w;
     LookupByPrefixRLocked := LookupByPrefixRLocked w;
     GetExternalIPv4 := GetExternalIPv4 w;
     faults := faults w;
     trace := trace w ++ [e] |}.

Definition setMap (m : gmap Key RemoteEndpointInfo) (w : World) : World :=
  {| bpfMap := m;
     LookupByPrefixRLocked := LookupByPrefixRLocked w;
     GetExternalIPv4 := GetExternalIPv4 w;
     faults := faults w;
     trace := trace w |}.

(** The outcome of the next map operation; an exhausted list means the
    kernel reports no further failure. *)
Definition nextFault (w : World) : option error * World :=
  (mjoin (head (faults w)),
   {| bpfMap := bpfMap w;
      LookupByPrefixRLocked := LookupByPrefixRLocked w;
      GetExternalIPv4 := GetExternalIPv4 w;
      faults := tail (faults w);
      trace := trace w |}).

(** Modelled from the spec: [bpf.Map.Update], of pkg/bpf: a point
    update that replaces the whole value, or fails and changes nothing. *)
Definition Map_Update (k : Key) (v : RemoteEndpointInfo) (w : World)
  : World * option error :=
  let '(f, w) := nextFault w in
  match f with
  | None => (emit (EvUpdate k v None) (setMap (<[k := v]> (bpfMap w)) w), None)
  | Some e => (emit (EvUpdate k v (Some e)) w, Some e)
  end.

(** Modelled from the spec: [bpf.Map.Delete], of pkg/bpf: a point
    delete; deleting an absent key is no error. *)
Definition Map_Delete (k : Key) (w : World) : World * option error :=
  let '(f, w) := nextFault w in
  match f with
  | None => (emit (EvDelete k None) (setMap (delete k (bpfMap w)) w), None)
  | Some e => (emit (EvDelete k (Some e)) w, Some e)
  end.

(** [bpf.DumpCallback], with the state the callback updates made
    explicit. *)
Definition DumpCallback (A : Type) : Type :=
  Key -> RemoteEndpointInfo -> A -> A.

Fixpoint dumpEntries {A} (cb : DumpCallback A)
    (es : list (Key * RemoteEndpointInfo)) (acc : A) (w : World)
  : World * A * option error :=
  match es with
  | [] => (w, acc, None)
  | (k, v) :: es' =>
      let '(f, w) := nextFault w in
      match f with
      | Some e => (w, acc, Some e)
      | None => dumpEntries cb es' (cb k v acc) (emit (EvCallback k v) w)
      end
  end.

(** The order in which the kernel hands out the entries of the map. *)
Variable dumpOrder :
  gmap Key RemoteEndpointInfo -> list (Key * RemoteEndpointInfo).

(** Modelled from the spec: [bpf.Map.DumpWithCallback], of pkg/bpf: a
    full synchronous scan calling [cb] on every entry; opening the map and
    reading each entry can fail, which ends the scan with that error.  The
    calls of [cb] and the return of the scan are events of the trace. *)
Definition Map_DumpWithCallback {A} (cb : DumpCallback A) (acc : A)
    (w : World) : World * A * option error :=
  let '(f, w') := nextFault w in
  match f with
  | Some e => (emit (EvDump (Some e)) w', acc, Some e)
  | None =>
      let '(w1, acc1, r) := dumpEntries cb (dumpOrder (bpfMap w')) acc w' in
      (emit (EvDump r) w1, acc1, r)
  end.

(** *** OnIPIdentityCacheChange *)

(** The value an [Upsert] writes. *)
Definition upsertValue (externalIP newHostIP : net.IP)
    (newID : NumericIdentity) : RemoteEndpointInfo :=
  let value := {| SecurityIdentity := uint32 newID;
                  TunnelEndpoint := zeroIPv4 |} in
  match newHostIP with
  | Some _ =>
      match net.To4 newHostIP with
      | Some ip4 =>
          if negb (net.Equal (Some ip4) externalIP)
          then {| SecurityIdentity := SecurityIdentity value;
                  TunnelEndpoint := copy (TunnelEndpoint value) ip4 |}
          else value
      | None => value
      end
  | None => value
  end.

Definition OnIPIdentityCacheChange (modType : CacheModification)
    (cidr : net.IPNet) (oldHostIP newHostIP : net.IP)
    (oldID : option NumericIdentity) (newID : NumericIdentity)
    (w : World) : World :=
  let w := emit (EvLog Debug
             "Daemon notified of IP-Identity cache state change" None) w in
  let key := NewKey (net.IPNet_IP cidr) (net.IPNet_Mask cidr) in
  match modType with
  | Upsert =>
      let value := upsertValue (GetExternalIPv4 w) newHostIP newID in
      let '(w, err) := Map_Update key value w in
      match err with
      | Some e => emit (EvLog Warning "unable to update bpf map" (Some e)) w
      | None => w
      end
  | Delete =>
      let '(w, err) := Map_Delete key w in
      match err with
      | Some e =>
          emit (EvLog Warning "unable to delete from bpf map" (Some e)) w
      | None => w
      end
  | Unsupported _ =>
      emit (EvLog Warning "cache modification type not supported" None) w
  end.

(** *** updateStaleEntriesFunction *)

(** [keysToRemove] is the Go map the returned callback writes to; here it
    is the state the callback threads. *)
Definition updateStaleEntriesFunction
    (lookupByPrefix : string -> Identity * bool)
  : DumpCallback (gmap string Key) :=
  fun k _value keysToRemove =>
    let keyToIP := KeyString k in
    let '(i, exists_) := lookupByPrefix keyToIP in
    if negb exists_ then
      if bool_decide (Source i = FromKVStore)
         || bool_decide (Source i = FromAgentLocal)
      then <[keyToIP := k]> keysToRemove
      else keysToRemove
    else keysToRemove.

(** *** garbageCollect *)

(** The order in which [range keysToRemove] yields the entries of the Go
    map: unspecified by the language. *)
Variable rangeOrder : gmap string Key -> list (string * Key).

Fixpoint deleteKeys (ks : list Key) (w : World) : World * option error :=
  match ks with
  | [] => (w, None)
  | k :: ks' =>
      let w := emit (EvLog Debug "deleting from ipcache BPF map" None) w in
      let '(w, err) := Map_Delete k w in
      match err with
      | Some e =>
          (w, Some ("error deleting key " +:+ KeyString k +:+
                    " from ipcache BPF map: " +:+ e))
      | None => deleteKeys ks' w
      end
  end.

(** The body of [garbageCollect] between taking the read lock and the
    deferred unlock. *)
Definition garbageCollectLocked (w : World) : World * option error :=
  let '(w, keysToRemove, err) :=
    Map_DumpWithCallback
      (updateStaleEntriesFunction (LookupByPrefixRLocked w)) ∅ w in
  match err with
  | Some e => (w, Some ("error dumping ipcache BPF map: " +:+ e))
  | None => deleteKeys (rangeOrder keysToRemove).*2 w
  end.

Definition garbageCollect (w : World) : World * option error :=
  let w := emit (EvLog Debug
             "Running garbage collection for BPF IPCache" None) w in
  let w := emit EvRLock w in
  let '(w, r) := garbageCollectLocked w in
  (emit EvRUnlock w, r).

End Datapath.

Arguments Identity source : clear implicits.
Arguments Event Key : clear implicits.
Arguments World Key {_ _} source.

(** ** Reading a trace *)

Section Traces.

Context {Key : Type}.

(** The events of [evs'] that come after the first [length evs]. *)
Definition eventsAfter (evs evs' : list (Event Key)) : list (Event Key) :=
  drop (length evs) evs'.

Definition isMapCall (e : Event Key) : bool :=
  match e with
  | EvUpdate _ _ _ | EvDelete _ _ => true
  | _ => false
  end.

(** The point operations issued against the BPF map, in order. *)
Definition mapCalls (evs : list (Event Key)) : list (Event Key) :=
  List.filter isMapCall evs.

(** The keys of the point deletes issued, in order. *)
Fixpoint deletesOf (evs : list (Event Key)) : list Key :=
  match evs with
  | [] => []
  | EvDelete k _ :: evs' => k :: deletesOf evs'
  | _ :: evs' => deletesOf evs'
  end.

(** The keys of the point deletes issued while [held] read locks, and
    those taken and released along [evs], are held. *)
Fixpoint deletesWhileLocked (held : nat) (evs : list (Event Key))
  : list Key :=
  match evs with
  | [] => []
  | EvRLock :: evs' => deletesWhileLocked (S held) evs'
  | EvRUnlock :: evs' => deletesWhileLocked (Nat.pred held) evs'
  | EvDelete k _ :: evs' =>
      if Nat.eqb held 0 then deletesWhileLocked held evs'
      else k :: deletesWhileLocked held evs'
  | _ :: evs' => deletesWhileLocked held evs'
  end.

Definition isLockEvent (e : Event Key) : bool :=
  match e with
  | EvRLock | EvRUnlock => true
  | _ => false
  end.

(** The calls of the callback of a scan on the entries [es], in order. *)
Definition callbackEvents (es : list (Key * RemoteEndpointInfo))
  : list (Event Key) :=
  (fun kv => EvCallback kv.1 kv.2) <$> es.

Definition isScanEvent (e : Event Key) : bool :=
  match e with
  | EvCallback _ _ | EvDump _ => true
  | _ => false
  end.

(** The calls of the callback and the returns of scans, in order. *)
Definition scansOf (evs : list (Event Key)) : list (Event Key) :=
  List.filter isScanEvent evs.

(** The calls of the callback and the returns of scans that happen while
    [held] read locks, and those taken and released along [evs], are
    held. *)
Fixpoint scansWhileLocked (held : nat) (evs : list (Event Key))
  : list (Event Key) :=
  match evs with
  | [] => []
  | EvRLock :: evs' => scansWhileLocked (S held) evs'
  | EvRUnlock :: evs' => scansWhileLocked (Nat.pred held) evs'
  | e :: evs' =>
      if isScanEvent e && negb (Nat.eqb held 0)
      then e :: scansWhileLocked held evs'
      else scansWhileLocked held evs'
  end.

Definition warnings (evs : list (Event Key)) : list (Event Key) :=
  List.filter (fun e => match e with
                        | EvLog Warning _ _ => true
                        | _ => false
                        end) evs.

End Traces.

(** ** A concrete key codec and concrete worlds *)

Module Scenario.

(** Modelled from the spec: the key of pkg/maps/ipcache, the address
    bytes and the prefix length, and its canonical string
    [a.b.c.d/len]. *)
Definition Key : Type := (list N * N)%type.

Definition leadingOnes (b : N) : N :=
  match b with
  | 255 => 8 | 254 => 7 | 252 => 6 | 248 => 5
  | 240 => 4 | 224 => 3 | 192 => 2 | 128 => 1
  | _ => 0
  end%N.

Fixpoint maskOnes (m : list N) : N :=
  match m with
  | [] => 0
  | b :: m' => if N.eqb b 255 then 8 + maskOnes m' else leadingOnes b
  end%N.

Definition NewKey (ip : net.IP) (mask : net.IPMask) : Key :=
  let addr := match net.To4 ip with
              | Some ip4 => ip4
              | None => net.bytes ip
              end in
  (Byte.to_N <$> addr, maskOnes (Byte.to_N <$> net.bytes mask)).

Fixpoint dotted (bs : list N) : string :=
  match bs with
  | [] => ""
  | [b] => pretty b
  | b :: bs' => pretty b +:+ "." +:+ dotted bs'
  end.

Definition KeyString (k : Key) : string :=
  dotted k.1 +:+ "/" +:+ pretty k.2.

(** Modelled from the spec: the provenance tags of pkg/ipcache. *)
Inductive source : Type :=
| Unknown
| FromKubernetes
| FromKVStore
| FromAgentLocal.

#[global] Instance source_eq_dec : EqDecision source.
Proof. solve_decision. Defined.

Definition dumpOrder (m : gmap Key RemoteEndpointInfo)
  : list (Key * RemoteEndpointInfo) := map_to_list m.

Definition rangeOrder (m : gmap string Key) : list (string * Key) :=
  map_to_list m.

Definition ipv4 (a b c d : byte) : net.IP := Some [a; b; c; d].

(** 10.0.0.0/24, 10.0.1.0/24 and 10.0.2.0/24 *)
Definition cidr0 : net.IPNet :=
  {| net.IPNet_IP := ipv4 x0a x00 x00 x00;
     net.IPNet_Mask := Some [xff; xff; xff; x00] |}.
Definition cidr1 : net.IPNet :=
  {| net.IPNet_IP := ipv4 x0a x00 x01 x00;
     net.IPNet_Mask := Some [xff; xff; xff; x00] |}.
Definition cidr2 : net.IPNet :=
  {| net.IPNet_IP := ipv4 x0a x00 x02 x00;
     net.IPNet_Mask := Some [xff; xff; xff; x00] |}.

Definition key0 : Key := NewKey (net.IPNet_IP cidr0) (net.IPNet_Mask cidr0).
Definition key1 : Key := NewKey (net.IPNet_IP cidr1) (net.IPNet_Mask cidr1).
Definition key2 : Key := NewKey (net.IPNet_IP cidr2) (net.IPNet_Mask cidr2).

(** 203.0.113.5, a remote host, and 198.51.100.1, this node *)
Definition remoteHost : net.IP := ipv4 xcb x00 x71 x05.
Definition localHost : net.IP := ipv4 xc6 x33 x64 x01.

(** 2001:db8::1, an address with no 4-byte form *)
Definition remoteHost6 : net.IP :=
  Some [x20; x01; x0d; xb8; x00; x00; x00; x00;
        x00; x00; x00; x00; x00; x00; x00; x01].

Definition info (id : Z) (tunnel : net.IP) : RemoteEndpointInfo :=
  {| SecurityIdentity := id; TunnelEndpoint := net.bytes tunnel |}.

(** A cache in which no prefix exists and every lookup answers with the
    given provenance. *)
Definition absentFrom (s : source) (_ : string) : Identity source * bool :=
  ({| ID := 0%Z; Source := s |}, false).

(** A cache that knows 10.0.1.0/24 (from the key-value store) and answers
    every other lookup as absent, with the key-value store as source. *)
Definition cacheWithOne (p : string) : Identity source * bool :=
  if bool_decide (p = KeyString key1)
  then ({| ID := 1001%Z; Source := FromKVStore |}, true)
  else ({| ID := 0%Z; Source := FromKVStore |}, false).

Definition world (m : gmap Key RemoteEndpointInfo)
    (cache : string -> Identity source * bool)
    (fs : list (option error)) : World Key source :=
  {| bpfMap := m;
     LookupByPrefixRLocked := cache;
     GetExternalIPv4 := localHost;
     faults := fs;
     trace := [] |}.

Definition threeEntries : gmap Key RemoteEndpointInfo :=
  <[key0 := info 1000 remoteHost]>
    (<[key1 := info 1001 remoteHost]>
       (<[key2 := info 1002 remoteHost]> ∅)).

(** Three entries the cache does not know, all from the key-value store;
    the kernel fails the sixth operation. *)
Definition staleWorld : World Key source :=
  world threeEntries (absentFrom FromKVStore)
    [None; None; None; None; None; Some "EIO"].

(** [staleWorld] once the scan has called back on the three entries,
    consumed four kernel outcomes and returned. *)
Definition staleWorldScanned : World Key source :=
  {| bpfMap := threeEntries;
     LookupByPrefixRLocked := absentFrom FromKVStore;
     GetExternalIPv4 := localHost;
     faults := [None; Some "EIO"];
     trace := callbackEvents (dumpOrder threeEntries) ++ [EvDump None] |}.

Definition allMarked : gmap string Key :=
  <[KeyString key0 := key0]>
    (<[KeyString key1 := key1]> (<[KeyString key2 := key2]> ∅)).

End Scenario.

(** ** Statements about a sweep *)

Section Statements.

Context {Key : Type} `{Countable Key}.

(** The callback applied to the entries a scan visits, in order. *)
Definition runCallback {A} (cb : DumpCallback (Key := Key) A)
    (visited : list (Key * RemoteEndpointInfo)) (acc : A) : A :=
  foldl (fun acc kv => cb kv.1 kv.2 acc) acc visited.

(** The read lock has been released before any point delete is issued. *)
Definition unlockedBeforeDeletes (evs : list (Event Key)) : Prop :=
  ∀ pre k r post, evs = pre ++ EvDelete k r :: post → EvRUnlock ∈ pre.

(** The map after the point deletes of [ks] have been applied. *)
Definition deleteAll {V} (ks : list Key) (m : gmap Key V) : gmap Key V :=
  foldl (fun m k => delete k m) m ks.

End Statements.

(** ** Statements about stale entries *)

Section StaleEntries.

Context {Key : Type} `{Countable Key}.
Variable KeyString : Key -> string.
Context {source : Type} `{EqDecision source}.
Variables FromKVStore FromAgentLocal : source.

(** The test [updateStaleEntriesFunction] applies to a key: the lookup of
    its prefix string reports it absent, and the source of the identity the
    lookup returns is [FromKVStore] or [FromAgentLocal]. *)
Definition isStale (lookupByPrefix : string -> Identity source * bool)
    (k : Key) : bool :=
  negb (lookupByPrefix (KeyString k)).2
  && (bool_decide (Source (lookupByPrefix (KeyString k)).1 = FromKVStore)
      || bool_decide
           (Source (lookupByPrefix (KeyString k)).1 = FromAgentLocal)).

(** The kernel fails none of the coming map operations. *)
Definition noFault (w : World Key source) : Prop :=
  Forall (fun f => f = None) (faults w).

(** No two keys of the map have the same prefix string. *)
Definition distinctPrefixes (m : gmap Key RemoteEndpointInfo) : Prop :=
  NoDup (KeyString <$> (map_to_list m).*1).

End StaleEntries.

(** ** Entities of the policy API (pkg/policy/api/entity.go) *)

Module api.

Section Entities.

(** [EndpointSelector], [labels.LabelArray] and the method
    [EndpointSelectorSlice.Matches] are declared in other files; they are
    taken as parameters, as are the selectors the package builds with
    [NewESFromLabels]. *)
Context {EndpointSelector LabelArray : Type}.
Variable EndpointSelectorSlice_Matches :
  list EndpointSelector -> LabelArray -> bool.
Variables WildcardEndpointSelector endpointSelectorWorld
  endpointSelectorHost endpointSelectorInit
  endpointSelectorClusterEndpoint : EndpointSelector.

Definition Entity : Type := string.

Definition EntityAll : Entity := "all".
Definition EntityWorld : Entity := "world".
Definition EntityCluster : Entity := "cluster".
Definition EntityHost : Entity := "host".
Definition EntityInit : Entity := "init".

(** The package variable [EntitySelectorMapping], as initialised. *)
Definition EntitySelectorMapping : gmap Entity (list EndpointSelector) :=
  <[EntityAll := [WildcardEndpointSelector]]>
    (<[EntityWorld := [endpointSelectorWorld]]>
       (<[EntityCluster := [endpointSelectorHost;
                            endpointSelectorInit;
                            endpointSelectorClusterEndpoint]]>
          (<[EntityHost := [endpointSelectorHost]]>
             (<[EntityInit := [endpointSelectorInit]]> ∅)))).

(** The methods read the package variable; it is their first argument. *)
Definition Entity_Matches (mapping : gmap Entity (list EndpointSelector))
    (e : Entity) (ctx : LabelArray) : bool :=
  match mapping !! e with
  | Some selectors => EndpointSelectorSlice_Matches selectors ctx
  | None => false
  end.

Fixpoint EntitySlice_Matches (mapping : gmap Entity (list EndpointSelector))
    (s : list Entity) (ctx : LabelArray) : bool :=
  match s with
  | [] => false
  | entity :: s' =>
      if Entity_Matches mapping entity ctx then true
      else EntitySlice_Matches mapping s' ctx
  end.

Definition GetAsEndpointSelectors
    (mapping : gmap Entity (list EndpointSelector)) (s : list Entity)
  : list EndpointSelector :=
  foldl (fun slice e =>
           match mapping !! e with
           | Some selector => slice ++ selector
           | None => slice
           end) [] s.

End Entities.

End api.

(** ** Proxy redirects (pkg/proxy/redirect.go) *)

Module proxy.

Section Redirects.

(** The types of the fields are declared in other packages;
    [policy.L7DataMap] is a Go map from endpoint selectors to L7 rules. *)
Context {EndpointUpdater L7ParserType Time RedirectImplementation : Type}.
Context {Selector : Type} `{Countable Selector} {L7Rules L4Filter : Type}.

(** The field [L7RulesPerEp] of [policy.L4Filter]. *)
Variable L7RulesPerEp : L4Filter -> gmap Selector L7Rules.

(** The order in which [range] yields the entries of a Go map. *)
Variable rangeOrder : gmap Selector L7Rules -> list (Selector * L7Rules).

(** [Redirect]; the mutex, which [updateRules] expects its caller to hold,
    is left out. *)
Record Redirect : Type := {
  endpointID : Z;
  id : string;
  ingress : bool;
  localEndpoint : EndpointUpdater;
  parserType : L7ParserType;
  created : Time;
  implementation : RedirectImplementation;
  ProxyPort : Z;
  lastUpdated : Time;
  rules : gmap Selector L7Rules
}.

Definition updateRules (r : Redirect) (l4 : L4Filter) : Redirect :=
  {| endpointID := endpointID r;
     id := id r;
     ingress := ingress r;
     localEndpoint := localEndpoint r;
     parserType := parserType r;
     created := created r;
     implementation := implementation r;
     ProxyPort := ProxyPort r;
     lastUpdated := lastUpdated r;
     rules := foldl (fun rules kv => <[kv.1 := kv.2]> rules) ∅
                (rangeOrder (L7RulesPerEp l4)) |}.

End Redirects.

End proxy.

(** ** The monitor listener of protocol 1.0 (package [main]) *)

Module monitor.

Inductive Level : Type := Debug | Warn | Error.

(** How a run of [drainQueue] stands: it has returned, or it waits for the
    next payload of a queue that is open and empty. *)
Inductive Status : Type := Returned | Waiting.

Inductive Event : Type :=
| EvWrite (buf : list byte) (r : option error)
| EvLog (lvl : Level) (msg : string) (err : option error)
| EvClose
| EvCleanup.

Section Listener.

(** [payload.Payload], its method [BuildMessage] and
    [listener.IsDisconnected] are declared in other packages. *)
Context {Payload : Type}.
Variable BuildMessage : Payload -> list byte + error.
Variable IsDisconnected : error -> bool.

(** The loop of [drainQueue] over the payloads it receives, in order;
    [outcomes] are the results the connection gives to the coming writes,
    an exhausted list meaning success.  The flag tells whether the loop was
    left by [return]. *)
Fixpoint drainLoop (received : list Payload) (outcomes : list (option error))
  : list Event * bool :=
  match received with
  | [] => ([], false)
  | pl :: received' =>
      match BuildMessage pl with
      | inr err =>
          let '(evs, returned) := drainLoop received' outcomes in
          (EvLog Error "Unable to send notification to listeners" (Some err)
           :: evs, returned)
      | inl buf =>
          match mjoin (head outcomes) with
          | Some err =>
              ([EvWrite buf (Some err);
                if IsDisconnected err
                then EvLog Debug "Listener disconnected" None
                else EvLog Warn "Removing listener due to write failure"
                       (Some err)],
               true)
          | None =>
              let '(evs, returned) := drainLoop received' (tail outcomes) in
              (EvWrite buf None :: evs, returned)
          end
      end
  end.

(** [drainQueue], run on the payloads the queue delivers; [closed] tells
    whether the queue is closed after them.  The deferred function closes
    the connection and calls [cleanupFn] when [drainQueue] returns. *)
Definition drainQueue (received : list Payload) (closed : bool)
    (outcomes : list (option error)) : list Event * Status :=
  let '(evs, returned) := drainLoop received outcomes in
  if returned || closed then (evs ++ [EvClose; EvCleanup], Returned)
  else (evs, Waiting).

(** The buffers handed to [conn.Write], with the results, in order. *)
Fixpoint writesOf (evs : list Event) : list (list byte * option error) :=
  match evs with
  | [] => []
  | EvWrite buf r :: evs' => (buf, r) :: writesOf evs'
  | _ :: evs' => writesOf evs'
  end.

(** The messages of the payloads that can be built, in order. *)
Definition messages (received : list Payload) : list (list byte) :=
  omap (fun pl => match BuildMessage pl with
                  | inl buf => Some buf
                  | inr _ => None
                  end) received.

End Listener.

End monitor.

(** ** Further concrete worlds and instances *)

Module Examples.

Import Scenario.

(** Three entries of which the cache knows 10.0.1.0/24; the kernel fails
    nothing. *)
Definition mixedWorld : World Key source :=
  world threeEntries cacheWithOne [].

(** Three entries the cache does not know, the lookups returning the zero
    source. *)
Definition unknownSourceWorld : World Key source :=
  world threeEntries (absentFrom Unknown) [].

Definition emptyWorld : World Key source :=
  world ∅ (absentFrom Unknown) [].

(** Selectors as label names, labels as the list of the names present; a
    slice of selectors matches when one of its names is present. *)
Definition sliceMatches (l : list string) (ctx : list string) : bool :=
  existsb (fun sel => bool_decide (sel ∈ ctx)) l.

Definition mapping : gmap api.Entity (list string) :=
  api.EntitySelectorMapping "any" "reserved:world" "reserved:host"
    "reserved:init" "k8s:cluster".

(** A redirect over rules keyed by strings. *)
Definition redirect (rs : gmap string nat)
  : proxy.Redirect (EndpointUpdater := unit) (L7ParserType := string)
      (Time := nat) (RedirectImplementation := unit) :=
  {| proxy.endpointID := 7;
     proxy.id := "7:ingress:TCP:80";
     proxy.ingress := true;
     proxy.localEndpoint := tt;
     proxy.parserType := "http";
     proxy.created := 0;
     proxy.implementation := tt;
     proxy.ProxyPort := 10000;
     proxy.lastUpdated := 0;
     proxy.rules := rs |}.

Definition filterRules : gmap string nat :=
  <["app=a" := 1]> (<["app=b" := 2]> ∅).

Definition rangeRules (m : gmap string nat) : list (string * nat) :=
  map_to_list m.

(** Payloads that carry their message, or cannot be built. *)
Definition BuildMessage (pl : option (list byte)) : list byte + error :=
  match pl with
  | Some buf => inl buf
  | None => inr "cannot encode"
  end.

Definition IsDisconnected (e : error) : bool := bool_decide (e = "EPIPE").

End Examples.

(** ** Properties *)

Section Properties.

Context {Key : Type} `{Countable Key}.
Variable NewKey : net.IP -> net.IPMask -> Key.
Variable KeyString : Key -> string.
Context {source : Type} `{EqDecision source}.
Variables FromKVStore FromAgentLocal : source.
Variable dumpOrder :
  gmap Key RemoteEndpointInfo -> list (Key * RemoteEndpointInfo).
Variable rangeOrder : gmap string Key -> list (string * Key).

Local Abbreviation World := (World Key source).
Local Abbreviation OnChange := (OnIPIdentityCacheChange (source := source) NewKey).
Local Abbreviation staleCallback :=
  (updateStaleEntriesFunction KeyString FromKVStore FromAgentLocal).
Local Abbreviation gc :=
  (garbageCollect KeyString FromKVStore FromAgentLocal dumpOrder rangeOrder).
Local Abbreviation keyOf cidr :=
  (NewKey (net.IPNet_IP cidr) (net.IPNet_Mask cidr)).

(** *** The map operations *)

Lemma eventsAfter_app (evs new : list (Event Key)) :
  eventsAfter evs (evs ++ new) = new.
Proof. unfold eventsAfter. by rewrite drop_app_length. Qed.

Lemma Map_Update_ok k v (w : World) :
  mjoin (head (faults w)) = None →
  Map_Update k v w =
    (emit (EvUpdate k v None)
       (setMap (<[k := v]> (bpfMap w)) (nextFault w).2), None).
Proof. intros Hf. unfold Map_Update, nextFault. by rewrite Hf. Qed.

Lemma Map_Update_err k v (w : World) e :
  mjoin (head (faults w)) = Some e →
  Map_Update k v w = (emit (EvUpdate k v (Some e)) (nextFault w).2, Some e).
Proof. intros Hf. unfold Map_Update, nextFault. by rewrite Hf. Qed.

Lemma Map_Delete_ok k (w : World) :
  mjoin (head (faults w)) = None →
  Map_Delete k w =
    (emit (EvDelete k None)
       (setMap (delete k (bpfMap w)) (nextFault w).2), None).
Proof. intros Hf. unfold Map_Delete, nextFault. by rewrite Hf. Qed.

Lemma Map_Delete_err k (w : World) e :
  mjoin (head (faults w)) = Some e →
  Map_Delete k w = (emit (EvDelete k (Some e)) (nextFault w).2, Some e).
Proof. intros Hf. unfold Map_Delete, nextFault. by rewrite Hf. Qed.

(** *** net.IP *)

Lemma To4_nil : net.To4 None = None.
Proof. reflexivity. Qed.

Lemma To4_length ip ip4 : net.To4 ip = Some ip4 → length ip4 = 4.
Proof.
  unfold net.To4. case_bool_decide as Hl.
  - intros ->. exact Hl.
  - destruct (_ && _) eqn:Hc; [|discriminate].
    intros [= <-]. rewrite length_take, length_drop.
    apply andb_prop in Hc as [Hc _]. apply andb_prop in Hc as [Hc _].
    apply andb_prop in Hc as [Hc _]. apply bool_decide_eq_true in Hc.
    unfold net.len, net.IPv6len in Hc. lia.
Qed.

Lemma copy_zeroIPv4 (ip4 : list byte) :
  length ip4 = 4 → copy zeroIPv4 ip4 = ip4.
Proof.
  intros Hl. unfold copy. rewrite Hl. simpl.
  rewrite take_ge by lia. apply app_nil_r.
Qed.

Lemma uint32_id (z : Z) : (0 ≤ z < 2 ^ 32)%Z → uint32 z = z.
Proof. intros Hz. unfold uint32. by apply Z.mod_small. Qed.

(** The tunnel endpoint of the value an upsert writes, case by case. *)
Lemma upsertValue_tunnel ext newHostIP newID :
  TunnelEndpoint (upsertValue ext newHostIP newID) =
    match net.To4 newHostIP with
    | Some ip4 => if net.Equal (Some ip4) ext then zeroIPv4 else ip4
    | None => zeroIPv4
    end.
Proof.
  unfold upsertValue. destruct newHostIP as [bs|]; [|done].
  destruct (net.To4 (Some bs)) as [ip4|] eqn:H4; [|done].
  destruct (net.Equal (Some ip4) ext); simpl; [done|].
  apply copy_zeroIPv4. by eapply To4_length.
Qed.

Lemma upsertValue_identity ext newHostIP newID :
  SecurityIdentity (upsertValue ext newHostIP newID) = uint32 newID.
Proof.
  unfold upsertValue. destruct newHostIP as [bs|]; [|done].
  destruct (net.To4 (Some bs)) as [ip4|]; [|done].
  by destruct (net.Equal (Some ip4) ext).
Qed.

(** What an upsert does to the world, whatever the kernel answers. *)
Lemma OnChange_upsert cidr oldHostIP newHostIP oldID newID (w : World) :
  let v := upsertValue (GetExternalIPv4 w) newHostIP newID in
  let w' := OnChange Upsert cidr oldHostIP newHostIP oldID newID w in
  let r := mjoin (head (faults w)) in
  mapCalls (eventsAfter (trace w) (trace w')) = [EvUpdate (keyOf cidr) v r]
  ∧ bpfMap w' = match r with
                | None => <[keyOf cidr := v]> (bpfMap w)
                | Some _ => bpfMap w
                end
  ∧ GetExternalIPv4 w' = GetExternalIPv4 w
  ∧ faults w' = tail (faults w).
Proof.
  intros v w' r. subst w'. unfold OnIPIdentityCacheChange.
  destruct r as [e|] eqn:Hr; subst r.
  - rewrite Map_Update_err with (e := e) by exact Hr. simpl.
    rewrite <- !app_assoc, eventsAfter_app. done.
  - rewrite Map_Update_ok by exact Hr. simpl.
    rewrite <- !app_assoc, eventsAfter_app. done.
Qed.

(** What a delete does to the world, whatever the kernel answers. *)
Lemma OnChange_delete cidr oldHostIP newHostIP oldID newID (w : World) :
  let w' := OnChange Delete cidr oldHostIP newHostIP oldID newID w in
  let r := mjoin (head (faults w)) in
  eventsAfter (trace w) (trace w') =
    EvLog Debug "Daemon notified of IP-Identity cache state change" None
    :: EvDelete (keyOf cidr) r
    :: match r with
       | None => []
       | Some e => [EvLog Warning "unable to delete from bpf map" (Some e)]
       end
  ∧ bpfMap w' = match r with
                | None => delete (keyOf cidr) (bpfMap w)
                | Some _ => bpfMap w
                end
  ∧ faults w' = tail (faults w).
Proof.
  intros w' r. subst w'. unfold OnIPIdentityCacheChange.
  destruct r as [e|] eqn:Hr; subst r.
  - rewrite Map_Delete_err with (e := e) by exact Hr. simpl.
    rewrite <- !app_assoc, eventsAfter_app. done.
  - rewrite Map_Delete_ok by exact Hr. simpl.
    rewrite <- !app_assoc, eventsAfter_app. done.
Qed.

(** *** The change listener *)

(** C2: an upsert issues one point update, for the key of the prefix; the
    value written carries the new identity; its tunnel endpoint is the
    4-byte form of the new host IP when the host IP has one that differs
    from the node's external IPv4 address, and is all-zero in every other
    case. *)
Theorem upsert_tunnel_endpoint cidr oldHostIP newHostIP oldID newID
    (w : World) :
  (0 ≤ newID < 2 ^ 32)%Z →
  let w' := OnChange Upsert cidr oldHostIP newHostIP oldID newID w in
  ∃ v,
    mapCalls (eventsAfter (trace w) (trace w')) =
      [EvUpdate (keyOf cidr) v (mjoin (head (faults w)))]
    ∧ (mjoin (head (faults w)) = None → bpfMap w' !! keyOf cidr = Some v)
    ∧ SecurityIdentity v = newID
    ∧ (∀ ip4, net.To4 newHostIP = Some ip4 →
         net.Equal (Some ip4) (GetExternalIPv4 w) = false →
         newHostIP ≠ None ∧ TunnelEndpoint v = ip4)
    ∧ ((¬ ∃ ip4, net.To4 newHostIP = Some ip4
                 ∧ net.Equal (Some ip4) (GetExternalIPv4 w) = false) →
       TunnelEndpoint v = zeroIPv4).
Proof.
  intros Hid w'.
  destruct (OnChange_upsert cidr oldHostIP newHostIP oldID newID w)
    as (Hcalls & Hmap & _ & _).
  exists (upsertValue (GetExternalIPv4 w) newHostIP newID).
  split; [exact Hcalls|]. split.
  { intros Hr. subst w'. rewrite Hmap, Hr. apply lookup_insert_eq. }
  split; [rewrite upsertValue_identity; by apply uint32_id|].
  rewrite upsertValue_tunnel. split.
  - intros ip4 H4 Hne. rewrite H4, Hne. split; [|done].
    intros ->. by rewrite To4_nil in H4.
  - intros Hno. destruct (net.To4 newHostIP) as [ip4|]; [|done].
    destruct (net.Equal (Some ip4) (GetExternalIPv4 w)) eqn:Heq; [done|].
    exfalso. apply Hno. by exists ip4.
Qed.

(** C10: when the new host IP is present but has no 4-byte form, the value
    an upsert writes has an all-zero tunnel endpoint, whatever the node's
    external address is. *)
Theorem upsert_no_ipv4_form cidr oldHostIP newHostIP oldID newID
    (w : World) :
  newHostIP ≠ None →
  net.To4 newHostIP = None →
  let w' := OnChange Upsert cidr oldHostIP newHostIP oldID newID w in
  ∃ v,
    mapCalls (eventsAfter (trace w) (trace w')) =
      [EvUpdate (keyOf cidr) v (mjoin (head (faults w)))]
    ∧ (mjoin (head (faults w)) = None → bpfMap w' !! keyOf cidr = Some v)
    ∧ TunnelEndpoint v = zeroIPv4.
Proof.
  intros _ H4 w'.
  destruct (OnChange_upsert cidr oldHostIP newHostIP oldID newID w)
    as (Hcalls & Hmap & _ & _).
  exists (upsertValue (GetExternalIPv4 w) newHostIP newID).
  split; [exact Hcalls|]. split.
  - intros Hr. subst w'. rewrite Hmap, Hr. apply lookup_insert_eq.
  - by rewrite upsertValue_tunnel, H4.
Qed.

(** C9: two upserts that agree on the prefix, the new host IP and the new
    identity leave the same world behind, and so the same BPF map, whatever
    their old host IPs and old identities are. *)
Theorem upsert_ignores_old_pair cidr oldHostIP1 oldHostIP2 newHostIP
    oldID1 oldID2 newID (w : World) :
  OnChange Upsert cidr oldHostIP1 newHostIP oldID1 newID w =
    OnChange Upsert cidr oldHostIP2 newHostIP oldID2 newID w
  ∧ bpfMap (OnChange Upsert cidr oldHostIP1 newHostIP oldID1 newID w) =
      bpfMap (OnChange Upsert cidr oldHostIP2 newHostIP oldID2 newID w).
Proof. split; reflexivity. Qed.

(** C7: when the kernel applies the first of two identical upserts, the BPF
    map after the second is the map after the first. *)
Theorem upsert_idempotent cidr oldHostIP newHostIP oldID newID (w : World) :
  mjoin (head (faults w)) = None →
  let once := OnChange Upsert cidr oldHostIP newHostIP oldID newID w in
  let twice := OnChange Upsert cidr oldHostIP newHostIP oldID newID once in
  bpfMap twice = bpfMap once
  ∧ bpfMap once !! keyOf cidr =
      Some (upsertValue (GetExternalIPv4 w) newHostIP newID).
Proof.
  intros Hok once twice.
  destruct (OnChange_upsert cidr oldHostIP newHostIP oldID newID w)
    as (_ & Hmap1 & Hext & _).
  destruct (OnChange_upsert cidr oldHostIP newHostIP oldID newID once)
    as (_ & Hmap2 & _ & _).
  fold once in Hmap1, Hext. fold twice in Hmap2.
  rewrite Hok in Hmap1. rewrite Hext in Hmap2. split.
  - rewrite Hmap2. destruct (mjoin (head (faults once))); [done|].
    rewrite Hmap1. apply insert_insert_eq.
  - rewrite Hmap1. apply lookup_insert_eq.
Qed.

(** C8: when the kernel applies the point delete, a delete event removes
    the entry under the key of the prefix and no other; a second delete of
    the same prefix, whose key is then absent, leaves the map as it is, and
    the only warning it can log is a failure the kernel itself reports. *)
Theorem delete_removes_exactly cidr oldHostIP newHostIP oldID newID
    (w : World) :
  mjoin (head (faults w)) = None →
  let w1 := OnChange Delete cidr oldHostIP newHostIP oldID newID w in
  let w2 := OnChange Delete cidr oldHostIP newHostIP oldID newID w1 in
  bpfMap w1 !! keyOf cidr = None
  ∧ (∀ k, k ≠ keyOf cidr → bpfMap w1 !! k = bpfMap w !! k)
  ∧ bpfMap w2 = bpfMap w1
  ∧ warnings (eventsAfter (trace w1) (trace w2)) =
      match mjoin (head (faults w1)) with
      | None => []
      | Some e => [EvLog Warning "unable to delete from bpf map" (Some e)]
      end.
Proof.
  intros Hok w1 w2.
  destruct (OnChange_delete cidr oldHostIP newHostIP oldID newID w)
    as (_ & Hmap1 & _).
  destruct (OnChange_delete cidr oldHostIP newHostIP oldID newID w1)
    as (Hev2 & Hmap2 & _).
  fold w1 in Hmap1. fold w2 in Hev2, Hmap2. rewrite Hok in Hmap1.
  split; [rewrite Hmap1; apply lookup_delete_eq|].
  split; [intros k Hk; rewrite Hmap1; by apply lookup_delete_ne|].
  split.
  - rewrite Hmap2. destruct (mjoin (head (faults w1))); [done|].
    rewrite Hmap1. apply delete_delete_eq.
  - rewrite Hev2. by destruct (mjoin (head (faults w1))).
Qed.

(** C6: the listener hands nothing back to its caller but the world it
    leaves.  A point update or delete the kernel fails is issued once, the
    map is as before, and one warning carrying the error is logged; an
    unsupported modification issues no map operation, leaves the map and
    the pending kernel outcomes as they are, and logs one warning. *)
Theorem listener_swallows_failures modType cidr oldHostIP newHostIP oldID
    newID (w : World) :
  let w' := OnChange modType cidr oldHostIP newHostIP oldID newID w in
  let evs := eventsAfter (trace w) (trace w') in
  trace w' = trace w ++ evs
  ∧ match modType, mjoin (head (faults w)) with
    | Upsert, Some e =>
        bpfMap w' = bpfMap w
        ∧ mapCalls evs =
            [EvUpdate (keyOf cidr)
               (upsertValue (GetExternalIPv4 w) newHostIP newID) (Some e)]
        ∧ warnings evs = [EvLog Warning "unable to update bpf map" (Some e)]
    | Delete, Some e =>
        bpfMap w' = bpfMap w
        ∧ mapCalls evs = [EvDelete (keyOf cidr) (Some e)]
        ∧ warnings evs =
            [EvLog Warning "unable to delete from bpf map" (Some e)]
    | Unsupported _, _ =>
        bpfMap w' = bpfMap w
        ∧ faults w' = faults w
        ∧ mapCalls evs = []
        ∧ warnings evs =
            [EvLog Warning "cache modification type not supported" None]
    | _, None => length (mapCalls evs) = 1 ∧ warnings evs = []
    end.
Proof.
  intros w' evs. subst evs w'. unfold OnIPIdentityCacheChange.
  destruct modType as [| |kind];
    [destruct (mjoin (head (faults w))) as [e|] eqn:Hr ..|].
  - rewrite Map_Update_err with (e := e) by exact Hr. simpl.
    rewrite <- !app_assoc, eventsAfter_app. done.
  - rewrite Map_Update_ok by exact Hr. simpl.
    rewrite <- !app_assoc, eventsAfter_app. done.
  - rewrite Map_Delete_err with (e := e) by exact Hr. simpl.
    rewrite <- !app_assoc, eventsAfter_app. done.
  - rewrite Map_Delete_ok by exact Hr. simpl.
    rewrite <- !app_assoc, eventsAfter_app. done.
  - simpl. rewrite <- !app_assoc, eventsAfter_app. done.
Qed.

(** *** The stale-entry callback *)

Lemma staleCallback_marked lookupByPrefix k v (m : gmap string Key) s :
  is_Some (staleCallback lookupByPrefix k v m !! s) ↔
  is_Some (m !! s)
  ∨ (KeyString k = s ∧ (lookupByPrefix s).2 = false
     ∧ (Source (lookupByPrefix s).1 = FromKVStore
        ∨ Source (lookupByPrefix s).1 = FromAgentLocal)).
Proof.
  unfold updateStaleEntriesFunction.
  destruct (lookupByPrefix (KeyString k)) as [i ex] eqn:Hl.
  assert (Hsrc : bool_decide (Source i = FromKVStore)
                 || bool_decide (Source i = FromAgentLocal) = true
                 ↔ Source i = FromKVStore ∨ Source i = FromAgentLocal).
  { rewrite orb_true_iff, !bool_decide_eq_true. done. }
  destruct ex; simpl.
  - split; [by left|]. intros [Hm|(<- & Hex & _)]; [done|].
    rewrite Hl in Hex. discriminate.
  - destruct (_ || _) eqn:Hq.
    + rewrite lookup_insert. destruct (decide (KeyString k = s)) as [Hs|Hs].
      * subst s. rewrite Hl. simpl. split; [|by eexists].
        intros _. right. split; [done|]. split; [done|]. by apply Hsrc.
      * split; [by left|]. intros [Hm|(Hk & _)]; [done|contradiction].
    + split; [by left|]. intros [Hm|(<- & _ & Hs)]; [done|].
      rewrite Hl in Hs. simpl in Hs. apply Hsrc in Hs. discriminate.
Qed.

Lemma runCallback_marked lookupByPrefix visited (acc : gmap string Key) s :
  is_Some (runCallback (staleCallback lookupByPrefix) visited acc !! s) ↔
  is_Some (acc !! s)
  ∨ (∃ k v, (k, v) ∈ visited ∧ KeyString k = s ∧ (lookupByPrefix s).2 = false
            ∧ (Source (lookupByPrefix s).1 = FromKVStore
               ∨ Source (lookupByPrefix s).1 = FromAgentLocal)).
Proof.
  revert acc. induction visited as [|[k v] visited IH]; intros acc.
  - simpl. split; [by left|]. intros [Hm|(k & v & Hin & _)]; [done|].
    by apply elem_of_nil in Hin.
  - unfold runCallback in *. simpl. rewrite IH, staleCallback_marked.
    split.
    + intros [[Hm|(Hk & Hex & Hs)]|(k' & v' & Hin & Hrest)].
      * by left.
      * right. exists k, v. split; [apply elem_of_cons; by left|done].
      * right. exists k', v'. split; [apply elem_of_cons; by right|done].
    + intros [Hm|(k' & v' & Hin & Hrest)]; [by left; left|].
      apply elem_of_cons in Hin as [[= -> ->]|Hin].
      * left. by right.
      * right. by exists k', v'.
Qed.

Lemma runCallback_value lookupByPrefix visited (acc : gmap string Key) s k' :
  runCallback (staleCallback lookupByPrefix) visited acc !! s = Some k' →
  acc !! s = Some k' ∨ (KeyString k' = s ∧ ∃ v, (k', v) ∈ visited).
Proof.
  revert acc. induction visited as [|[k v] visited IH]; intros acc.
  - by left.
  - unfold runCallback in *. simpl. intros Hs.
    apply IH in Hs as [Hs|(Hk & v' & Hin)].
    + unfold updateStaleEntriesFunction in Hs.
      destruct (lookupByPrefix (KeyString k)) as [i ex].
      destruct ex; simpl in Hs; [by left|].
      destruct (_ || _); [|by left].
      rewrite lookup_insert in Hs.
      destruct (decide (KeyString k = s)) as [Hks|Hks]; [|by left].
      injection Hs as <-. right. split; [done|].
      exists v. apply elem_of_cons. by left.
    + right. split; [done|]. exists v'. apply elem_of_cons. by right.
Qed.

(** C1: after the stale-entry callback has run over the entries a scan
    visits, starting from an empty [keysToRemove], a visited key whose
    lookup reports it absent is marked exactly when the source of the
    returned identity is [FromKVStore] or [FromAgentLocal]; a visited key
    whose lookup reports it present is not marked; and what is stored under
    the prefix string is a visited key with that string. *)
Theorem stale_entries_marked lookupByPrefix
    (visited : list (Key * RemoteEndpointInfo)) k v :
  (k, v) ∈ visited →
  let keysToRemove := runCallback (staleCallback lookupByPrefix) visited ∅ in
  let i := (lookupByPrefix (KeyString k)).1 in
  let exists_ := (lookupByPrefix (KeyString k)).2 in
  (exists_ = false →
     (is_Some (keysToRemove !! KeyString k) ↔
      Source i = FromKVStore ∨ Source i = FromAgentLocal))
  ∧ (exists_ = true → keysToRemove !! KeyString k = None)
  ∧ (∀ k', keysToRemove !! KeyString k = Some k' →
       KeyString k' = KeyString k ∧ ∃ v', (k', v') ∈ visited).
Proof.
  intros Hin keysToRemove i exists_. subst keysToRemove i exists_.
  split; [|split].
  - intros Hex. rewrite runCallback_marked, lookup_empty. split.
    + intros [Hm|(_ & _ & _ & _ & _ & Hs)]; [by destruct Hm|done].
    + intros Hs. right. by exists k, v.
  - intros Hex. apply eq_None_not_Some. rewrite runCallback_marked.
    rewrite lookup_empty. intros [Hm|(_ & _ & _ & _ & Hno & _)].
    + by destruct Hm.
    + rewrite Hex in Hno. discriminate.
  - intros k' Hk'. apply runCallback_value in Hk' as [Hm|Hk']; [|done].
    by rewrite lookup_empty in Hm.
Qed.

(** *** The scan *)

Local Abbreviation noLock := (fun e : Event Key => isLockEvent e = false).

(** What a scan computes does not depend on the trace so far. *)
Lemma dumpEntries_agree {A} (cb : DumpCallback A) es acc (w w' : World) :
  faults w = faults w' →
  (dumpEntries cb es acc w).1.2 = (dumpEntries cb es acc w').1.2
  ∧ (dumpEntries cb es acc w).2 = (dumpEntries cb es acc w').2
  ∧ faults (dumpEntries cb es acc w).1.1
    = faults (dumpEntries cb es acc w').1.1.
Proof.
  revert acc w w'. induction es as [|[k v] es IH]; intros acc w w' Hf;
    [done|].
  simpl. rewrite <- Hf. destruct (mjoin (head (faults w))); [done|].
  apply IH. simpl. by rewrite Hf.
Qed.

Lemma dumpEntries_lookup {A} (cb : DumpCallback A) es acc (w : World) :
  LookupByPrefixRLocked (dumpEntries cb es acc w).1.1
  = LookupByPrefixRLocked w.
Proof.
  revert acc w. induction es as [|[k v] es IH]; intros acc w; [done|].
  simpl. destruct (mjoin (head (faults w))); [done|].
  exact (IH (cb k v acc) (emit (EvCallback k v) (nextFault w).2)).
Qed.

Lemma Map_DumpWithCallback_eq {A} (cb : DumpCallback A) acc (w : World) :
  Map_DumpWithCallback dumpOrder cb acc w =
    match mjoin (head (faults w)) with
    | Some e => (emit (EvDump (Some e)) (nextFault w).2, acc, Some e)
    | None =>
        (emit (EvDump (dumpEntries cb (dumpOrder (bpfMap w)) acc
                         (nextFault w).2).2)
           (dumpEntries cb (dumpOrder (bpfMap w)) acc (nextFault w).2).1.1,
         (dumpEntries cb (dumpOrder (bpfMap w)) acc (nextFault w).2).1.2,
         (dumpEntries cb (dumpOrder (bpfMap w)) acc (nextFault w).2).2)
    end.
Proof.
  unfold Map_DumpWithCallback. simpl.
  destruct (mjoin (head (faults w))); [done|].
  by destruct (dumpEntries cb _ acc _) as [[w1 a1] r1].
Qed.

Lemma Map_DumpWithCallback_agree {A} (cb : DumpCallback A) acc
    (w w' : World) :
  bpfMap w = bpfMap w' →
  faults w = faults w' →
  (Map_DumpWithCallback dumpOrder cb acc w).1.2
    = (Map_DumpWithCallback dumpOrder cb acc w').1.2
  ∧ (Map_DumpWithCallback dumpOrder cb acc w).2
    = (Map_DumpWithCallback dumpOrder cb acc w').2
  ∧ faults (Map_DumpWithCallback dumpOrder cb acc w).1.1
    = faults (Map_DumpWithCallback dumpOrder cb acc w').1.1.
Proof.
  intros Hm Hf. rewrite !Map_DumpWithCallback_eq, <- Hf, <- Hm.
  destruct (mjoin (head (faults w))).
  - simpl. by rewrite Hf.
  - apply (dumpEntries_agree cb (dumpOrder (bpfMap w)) acc
             (nextFault w).2 (nextFault w').2).
    simpl. by rewrite Hf.
Qed.

Lemma Map_DumpWithCallback_lookup {A} (cb : DumpCallback A) acc
    (w : World) :
  LookupByPrefixRLocked (Map_DumpWithCallback dumpOrder cb acc w).1.1
  = LookupByPrefixRLocked w.
Proof.
  rewrite Map_DumpWithCallback_eq.
  destruct (mjoin (head (faults w))); [done|].
  exact (dumpEntries_lookup cb (dumpOrder (bpfMap w)) acc (nextFault w).2).
Qed.

(** A scan reads: it leaves the map as it is, adds to the trace the calls
    of its callback on a prefix of the entries, all of them when the scan
    reports no error, and its callback has run over these entries. *)
Lemma dumpEntries_reads {A} (cb : DumpCallback A) es acc (w : World) :
  let r := dumpEntries cb es acc w in
  bpfMap r.1.1 = bpfMap w
  ∧ ∃ n, trace r.1.1 = trace w ++ callbackEvents (take n es)
         ∧ r.1.2 = runCallback cb (take n es) acc
         ∧ (r.2 = None → length es ≤ n).
Proof.
  revert acc w. induction es as [|[k v] es IH]; intros acc w; simpl.
  - split; [done|]. exists 0. rewrite app_nil_r. split_and!; [done..|].
    simpl. lia.
  - destruct (mjoin (head (faults w))) as [e|]; simpl.
    + split; [done|]. exists 0. rewrite app_nil_r. by split_and!.
    + destruct (IH (cb k v acc) (emit (EvCallback k v) (nextFault w).2))
        as (Hm & n & Ht & Hacc & Hn).
      split; [exact Hm|]. exists (S n). split_and!.
      * etrans; [exact Ht|]. simpl. by rewrite <- app_assoc.
      * exact Hacc.
      * intros Hr. apply Hn in Hr. lia.
Qed.

Lemma Map_DumpWithCallback_reads {A} (cb : DumpCallback A) acc (w : World) :
  let r := Map_DumpWithCallback dumpOrder cb acc w in
  bpfMap r.1.1 = bpfMap w
  ∧ ∃ n, trace r.1.1
           = trace w ++ callbackEvents (take n (dumpOrder (bpfMap w)))
             ++ [EvDump r.2]
         ∧ r.1.2 = runCallback cb (take n (dumpOrder (bpfMap w))) acc
         ∧ (r.2 = None → length (dumpOrder (bpfMap w)) ≤ n).
Proof.
  rewrite Map_DumpWithCallback_eq.
  destruct (mjoin (head (faults w))) as [e|]; simpl.
  - split; [done|]. exists 0. by split_and!.
  - destruct (dumpEntries_reads cb (dumpOrder (bpfMap w)) acc (nextFault w).2)
      as (Hm & n & Ht & Hacc & Hn).
    split; [exact Hm|]. exists n. split_and!; [|done..].
    etrans; [apply (f_equal (fun t => t ++ _) Ht)|].
    by rewrite <- app_assoc.
Qed.

(** *** The deletion loop *)

Lemma deletesOf_app (evs evs' : list (Event Key)) :
  deletesOf (evs ++ evs') = deletesOf evs ++ deletesOf evs'.
Proof.
  induction evs as [|e evs IH]; [done|].
  destruct e; simpl; by rewrite ?IH.
Qed.

Lemma deletesWhileLocked_app held (evs evs' : list (Event Key)) :
  Forall noLock evs →
  deletesWhileLocked (S held) (evs ++ evs') =
    deletesOf evs ++ deletesWhileLocked (S held) evs'.
Proof.
  induction 1 as [|e evs He _ IH]; [done|].
  destruct e; simpl in *; try discriminate; by rewrite ?IH.
Qed.

Lemma deleteKeys_trace ks (w : World) :
  ∃ body, trace (deleteKeys KeyString ks w).1 = trace w ++ body
          ∧ Forall noLock body.
Proof.
  revert w. induction ks as [|k ks IH]; intros w; simpl.
  - exists []. by rewrite app_nil_r.
  - unfold Map_Delete. simpl.
    destruct (mjoin (head (faults w))) as [e|]; simpl.
    + eexists. rewrite <- app_assoc. split; [done|].
      repeat constructor.
    + match goal with
      | |- context [deleteKeys KeyString ks ?w1] =>
          destruct (IH w1) as (body & -> & Hbody)
      end.
      simpl. eexists. rewrite <- !app_assoc. split; [done|].
      simpl. by repeat constructor.
Qed.

Lemma deleteKeys_fail finished k rest e fs (w : World) :
  faults w = replicate (length finished) None ++ Some e :: fs →
  let r := deleteKeys KeyString (finished ++ k :: rest) w in
  r.2 = Some ("error deleting key " +:+ KeyString k +:+
              " from ipcache BPF map: " +:+ e)
  ∧ bpfMap r.1 = deleteAll finished (bpfMap w)
  ∧ faults r.1 = fs
  ∧ deletesOf (eventsAfter (trace w) (trace r.1)) = finished ++ [k].
Proof.
  revert w. induction finished as [|k0 finished IH]; intros w Hf; simpl.
  - unfold Map_Delete. simpl in *. rewrite Hf. simpl.
    rewrite <- app_assoc, eventsAfter_app. done.
  - unfold Map_Delete. simpl in *. rewrite Hf. simpl.
    match goal with
    | |- context [deleteKeys KeyString _ ?w1] =>
        destruct (IH w1) as (Hr & Hm & Hfs & Hd); [done|];
        destruct (deleteKeys_trace (finished ++ k :: rest) w1)
          as (body & Ht & _)
    end.
    split; [exact Hr|]. split; [exact Hm|]. split; [exact Hfs|].
    rewrite Ht in Hd |- *. simpl in Hd |- *.
    rewrite eventsAfter_app in Hd.
    rewrite <- !app_assoc, eventsAfter_app. simpl. by rewrite Hd.
Qed.

(** *** garbageCollect *)

Local Abbreviation quiet :=
  (fun e : Event Key => isLockEvent e = false ∧ isScanEvent e = false).
Local Abbreviation sweepLog :=
  (EvLog (Key := Key) Debug "Running garbage collection for BPF IPCache"
     None).
Local Abbreviation scanOf w :=
  (Map_DumpWithCallback dumpOrder
     (staleCallback (LookupByPrefixRLocked w)) ∅ w).

Lemma deletesOf_callbackEvents es :
  deletesOf (callbackEvents (Key := Key) es) = [].
Proof. by induction es. Qed.

Lemma callbackEvents_noLock es : Forall noLock (callbackEvents es).
Proof. induction es; by constructor. Qed.

Lemma scansOf_callbackEvents es :
  scansOf (callbackEvents (Key := Key) es) = callbackEvents es.
Proof.
  induction es as [|kv es IH]; [done|]. unfold scansOf in *. simpl.
  by rewrite IH.
Qed.

Lemma scansOf_app (evs evs' : list (Event Key)) :
  scansOf (evs ++ evs') = scansOf evs ++ scansOf evs'.
Proof. apply List.filter_app. Qed.

Lemma scansWhileLocked_app held (evs evs' : list (Event Key)) :
  Forall noLock evs →
  scansWhileLocked (S held) (evs ++ evs') =
    scansOf evs ++ scansWhileLocked (S held) evs'.
Proof.
  induction 1 as [|e evs He _ IH]; [done|]. unfold scansOf in *.
  destruct e; simpl in *; try discriminate; by rewrite ?IH.
Qed.

Lemma deletesOf_sweep_prefix es (rest : list (Event Key)) :
  deletesOf (sweepLog :: EvRLock :: callbackEvents es ++ rest)
  = deletesOf rest.
Proof.
  change (deletesOf (callbackEvents es ++ rest) = deletesOf rest).
  by rewrite deletesOf_app, deletesOf_callbackEvents.
Qed.

(** The events of the deletion loop: log messages and the point deletes of
    a prefix of [ks]. *)
Lemma deleteKeys_events ks (w : World) :
  ∃ attempted body,
    trace (deleteKeys KeyString ks w).1 = trace w ++ body
    ∧ Forall quiet body
    ∧ deletesOf body = take attempted ks.
Proof.
  revert w. induction ks as [|k ks IH]; intros w; simpl.
  - exists 0, []. by rewrite app_nil_r.
  - unfold Map_Delete. simpl.
    destruct (mjoin (head (faults w))) as [e|]; simpl.
    + exists 1. eexists. rewrite <- app_assoc. split; [done|].
      split; [by repeat constructor|done].
    + match goal with
      | |- context [deleteKeys KeyString ks ?w1] =>
          destruct (IH w1) as (attempted & body & -> & Hbody & Hd)
      end.
      simpl. exists (S attempted). eexists. rewrite <- !app_assoc.
      split; [done|]. simpl. rewrite Hd.
      split; [by repeat constructor|done].
Qed.

(** A sweep up to its deletion loop: it logs, takes the read lock, scans,
    and then either returns the error of the scan or runs the deletion
    loop on the keys the callback marked; the unlock comes last. *)
Lemma garbageCollect_scan (w : World) :
  ∃ w1 visited,
    gc w = match (scanOf w).2 with
           | Some e =>
               (emit EvRUnlock w1,
                Some ("error dumping ipcache BPF map: " +:+ e))
           | None =>
               (emit EvRUnlock
                  (deleteKeys KeyString (rangeOrder (scanOf w).1.2).*2 w1).1,
                (deleteKeys KeyString (rangeOrder (scanOf w).1.2).*2 w1).2)
           end
    ∧ bpfMap w1 = bpfMap w
    ∧ faults w1 = faults (scanOf w).1.1
    ∧ trace w1
      = trace w
        ++ sweepLog :: EvRLock
           :: callbackEvents (take visited (dumpOrder (bpfMap w)))
        ++ [EvDump (scanOf w).2]
    ∧ (scanOf w).1.2
      = runCallback (staleCallback (LookupByPrefixRLocked w))
          (take visited (dumpOrder (bpfMap w))) ∅
    ∧ ((scanOf w).2 = None → length (dumpOrder (bpfMap w)) ≤ visited)
    ∧ LookupByPrefixRLocked w1 = LookupByPrefixRLocked w.
Proof.
  set (w0 := emit EvRLock (emit sweepLog w)).
  pose proof (Map_DumpWithCallback_lookup
                (staleCallback (LookupByPrefixRLocked w)) ∅ w0) as Hl.
  destruct (Map_DumpWithCallback_agree
              (staleCallback (LookupByPrefixRLocked w)) ∅ w0 w
              eq_refl eq_refl) as (Ha & Hr & Hf).
  destruct (Map_DumpWithCallback_reads
              (staleCallback (LookupByPrefixRLocked w)) ∅ w0)
    as (Hm & visited & Ht & Hacc & Hfull).
  exists (Map_DumpWithCallback dumpOrder
            (staleCallback (LookupByPrefixRLocked w)) ∅ w0).1.1, visited.
  unfold garbageCollect, garbageCollectLocked.
  change (emit EvRLock (emit sweepLog w)) with w0.
  change (LookupByPrefixRLocked w0) with (LookupByPrefixRLocked w).
  destruct (Map_DumpWithCallback dumpOrder
              (staleCallback (LookupByPrefixRLocked w)) ∅ w0)
    as [[w1 keys0] r0].
  simpl in Ha, Hr, Hf, Hm, Ht, Hacc, Hfull, Hl |- *. subst keys0 r0.
  split_and!.
  - destruct (scanOf w).2; [done|]. by destruct (deleteKeys _ _ _).
  - exact Hm.
  - exact Hf.
  - rewrite Ht. by rewrite <- !app_assoc.
  - exact Hacc.
  - exact Hfull.
  - exact Hl.
Qed.


(** C4: when the scan of a sweep returns an error, the sweep returns an
    error that carries it, issues no point delete, and leaves the BPF map
    as it was. *)
Theorem garbageCollect_scan_failure (w : World) e :
  (Map_DumpWithCallback dumpOrder
     (staleCallback (LookupByPrefixRLocked w)) ∅ w).2 = Some e →
  let r := gc w in
  r.2 = Some ("error dumping ipcache BPF map: " +:+ e)
  ∧ deletesOf (eventsAfter (trace w) (trace r.1)) = []
  ∧ bpfMap r.1 = bpfMap w.
Proof.
  intros Hscan r. subst r.
  destruct (garbageCollect_scan w)
    as (w1 & visited & -> & Hm & _ & Ht & _).
  rewrite Hscan. cbn [fst snd emit trace bpfMap].
  rewrite Ht, <- !app_assoc, eventsAfter_app.
  split_and!; [done| |done]. cbn [app].
  by rewrite <- app_assoc, deletesOf_sweep_prefix.
Qed.

(** C5: when the scan succeeds and, in the order the loop ranges over
    [keysToRemove], the point deletes of [finished] succeed and the delete
    of [k] fails, the sweep returns an error naming [k]; it has issued the
    deletes of [finished] and of [k] and none for the keys after [k]; the
    map is the one the deletes of [finished] left. *)
Theorem garbageCollect_delete_failure (w w1 : World) keysToRemove
    finished k rest e fs :
  Map_DumpWithCallback dumpOrder
    (staleCallback (LookupByPrefixRLocked w)) ∅ w = (w1, keysToRemove, None) →
  (rangeOrder keysToRemove).*2 = finished ++ k :: rest →
  faults w1 = replicate (length finished) None ++ Some e :: fs →
  let r := gc w in
  r.2 = Some ("error deleting key " +:+ KeyString k +:+
              " from ipcache BPF map: " +:+ e)
  ∧ deletesOf (eventsAfter (trace w) (trace r.1)) = finished ++ [k]
  ∧ bpfMap r.1 = deleteAll finished (bpfMap w).
Proof.
  intros Hscan Horder Hfaults r. subst r.
  destruct (garbageCollect_scan w)
    as (w0 & visited & -> & Hm & Hf & Ht & _).
  rewrite Hscan in Hf, Ht |- *. simpl in Hf, Ht |- *. rewrite Horder.
  destruct (deleteKeys_fail finished k rest e fs w0)
    as (Hr & Hmap & _ & Hd); [by rewrite Hf|].
  destruct (deleteKeys_trace (finished ++ k :: rest) w0) as (body & Hb & _).
  cbn [fst snd emit trace bpfMap].
  split; [exact Hr|]. rewrite Hmap, Hm. split; [|done].
  rewrite Hb in Hd |- *. rewrite eventsAfter_app in Hd.
  rewrite Ht, <- !app_assoc, eventsAfter_app. cbn [app].
  rewrite <- !app_assoc, deletesOf_sweep_prefix. cbn [app deletesOf].
  rewrite deletesOf_app, Hd. cbn [deletesOf]. by rewrite app_nil_r.
Qed.

End Properties.

(** ** The properties at concrete worlds *)

Section Witnesses.

Import Scenario.

Local Abbreviation staleCallback :=
  (updateStaleEntriesFunction KeyString FromKVStore FromAgentLocal).
Local Abbreviation OnChange :=
  (OnIPIdentityCacheChange (source := source) NewKey).
Local Abbreviation gc :=
  (garbageCollect KeyString FromKVStore FromAgentLocal dumpOrder rangeOrder).

(** The sweep over three entries of which the cache knows one: the lookup of
    10.0.0.0/24 reports it absent with the key-value store as source, and
    the key is marked. *)
Lemma stale_entries_marked_witness :
  (key0, info 1000 remoteHost) ∈ dumpOrder threeEntries
  ∧ is_Some (runCallback (staleCallback cacheWithOne)
               (dumpOrder threeEntries) ∅ !! KeyString key0)
  ∧ runCallback (staleCallback cacheWithOne)
      (dumpOrder threeEntries) ∅ !! KeyString key1 = None.
Proof.
  assert (Hin0 : (key0, info 1000 remoteHost) ∈ dumpOrder threeEntries).
  { apply elem_of_map_to_list. vm_compute. reflexivity. }
  assert (Hin1 : (key1, info 1001 remoteHost) ∈ dumpOrder threeEntries).
  { apply elem_of_map_to_list. vm_compute. reflexivity. }
  split; [exact Hin0|]. split.
  - destruct (stale_entries_marked KeyString FromKVStore FromAgentLocal
                cacheWithOne (dumpOrder threeEntries) key0
                (info 1000 remoteHost) Hin0) as (Habsent & _ & _).
    apply Habsent; [vm_compute; reflexivity|]. left. vm_compute. reflexivity.
  - destruct (stale_entries_marked KeyString FromKVStore FromAgentLocal
                cacheWithOne (dumpOrder threeEntries) key1
                (info 1001 remoteHost) Hin1) as (_ & Hpresent & _).
    apply Hpresent. vm_compute. reflexivity.
Defined.

(** Scenario A: the upsert of 10.0.0.0/24 with host 203.0.113.5 and
    identity 1000 on the node 198.51.100.1. *)
Lemma upsert_tunnel_endpoint_witness :
  (0 ≤ 1000 < 2 ^ 32)%Z
  ∧ ∃ v,
      bpfMap (OnChange Upsert cidr0 None remoteHost
                None 1000%Z (world ∅ (absentFrom Unknown) [])) !! key0 = Some v
      ∧ SecurityIdentity v = 1000%Z
      ∧ TunnelEndpoint v = [xcb; x00; x71; x05].
Proof.
  assert (Hid : (0 ≤ 1000 < 2 ^ 32)%Z) by lia.
  split; [exact Hid|].
  destruct (upsert_tunnel_endpoint NewKey cidr0 None remoteHost None 1000%Z
              (world ∅ (absentFrom Unknown) []) Hid)
    as (v & _ & Hmap & Hident & Htunnel & _).
  exists v. split; [exact (Hmap eq_refl)|]. split; [exact Hident|].
  apply (Htunnel [xcb; x00; x71; x05]); vm_compute; reflexivity.
Defined.

(** The upsert of 10.0.0.0/24 with host 2001:db8::1. *)
Lemma upsert_no_ipv4_form_witness :
  remoteHost6 ≠ None
  ∧ net.To4 remoteHost6 = None
  ∧ ∃ v,
      bpfMap (OnChange Upsert cidr0 None remoteHost6
                None 1000%Z (world ∅ (absentFrom Unknown) [])) !! key0 = Some v
      ∧ TunnelEndpoint v = [x00; x00; x00; x00].
Proof.
  assert (Hpresent : remoteHost6 ≠ None) by discriminate.
  assert (Hno4 : net.To4 remoteHost6 = None) by (vm_compute; reflexivity).
  split; [exact Hpresent|]. split; [exact Hno4|].
  destruct (upsert_no_ipv4_form NewKey cidr0 None remoteHost6 None 1000%Z
              (world ∅ (absentFrom Unknown) []) Hpresent Hno4)
    as (v & _ & Hmap & Htunnel).
  exists v. split; [exact (Hmap eq_refl)|exact Htunnel].
Defined.

(** The upsert of Scenario A applied twice, the kernel failing neither. *)
Lemma upsert_idempotent_witness :
  mjoin (head (faults (world ∅ (absentFrom Unknown) [])))
    = None
  ∧ bpfMap (OnChange Upsert cidr0 None remoteHost
              None 1000%Z
              (OnChange Upsert cidr0 None remoteHost
                 None 1000%Z (world ∅ (absentFrom Unknown) [])))
    = bpfMap (OnChange Upsert cidr0 None remoteHost
                None 1000%Z (world ∅ (absentFrom Unknown) [])).
Proof.
  assert (Hok : mjoin (head (faults (world ∅ (absentFrom Unknown) [])))
                = None)
    by reflexivity.
  split; [exact Hok|].
  exact (proj1 (upsert_idempotent NewKey cidr0 None remoteHost None 1000%Z
                  (world ∅ (absentFrom Unknown) []) Hok)).
Defined.

(** Scenario B: the delete of 10.0.0.0/24 from a map of three entries, and
    the same delete again. *)
Lemma delete_removes_exactly_witness :
  mjoin (head (faults (world threeEntries (absentFrom Unknown) []))) = None
  ∧ bpfMap (OnChange Delete cidr0 None None None 0%Z
              (world threeEntries (absentFrom Unknown) [])) !! key0 = None
  ∧ bpfMap (OnChange Delete cidr0 None None None 0%Z
              (world threeEntries (absentFrom Unknown) [])) !! key1
    = threeEntries !! key1
  ∧ bpfMap (OnChange Delete cidr0 None None None 0%Z
              (OnChange Delete cidr0 None None None
                 0%Z (world threeEntries (absentFrom Unknown) [])))
    = bpfMap (OnChange Delete cidr0 None None None
                0%Z (world threeEntries (absentFrom Unknown) [])).
Proof.
  assert (Hok : mjoin (head (faults (world threeEntries
                                       (absentFrom Unknown) []))) = None)
    by reflexivity.
  split; [exact Hok|].
  destruct (delete_removes_exactly NewKey cidr0 None None None 0%Z
              (world threeEntries (absentFrom Unknown) []) Hok)
    as (Hgone & Hothers & Hagain & _).
  split; [exact Hgone|]. split; [|exact Hagain].
  apply Hothers. vm_compute. discriminate.
Defined.

(** Scenario D: the scan fails on the third entry it visits. *)
Lemma garbageCollect_scan_failure_witness :
  (Map_DumpWithCallback dumpOrder (staleCallback cacheWithOne) ∅
     (world threeEntries cacheWithOne [None; None; None; Some "EIO"])).2
    = Some "EIO"
  ∧ (gc
       (world threeEntries cacheWithOne [None; None; None; Some "EIO"])).2
    = Some "error dumping ipcache BPF map: EIO"
  ∧ bpfMap (gc
              (world threeEntries cacheWithOne
                 [None; None; None; Some "EIO"])).1
    = threeEntries.
Proof.
  assert (Hscan :
    (Map_DumpWithCallback dumpOrder (staleCallback cacheWithOne) ∅
       (world threeEntries cacheWithOne [None; None; None; Some "EIO"])).2
      = Some "EIO") by (vm_compute; reflexivity).
  split; [exact Hscan|].
  destruct (garbageCollect_scan_failure KeyString FromKVStore FromAgentLocal
              dumpOrder rangeOrder
              (world threeEntries cacheWithOne [None; None; None; Some "EIO"])
              "EIO" Hscan) as (Herr & _ & Hmap).
  split; [exact Herr|exact Hmap].
Defined.

(** Three stale entries; the scan succeeds, the first point delete succeeds
    and the second fails. *)
Lemma garbageCollect_delete_failure_witness :
  Map_DumpWithCallback dumpOrder
    (staleCallback (LookupByPrefixRLocked staleWorld)) ∅ staleWorld
    = (staleWorldScanned, allMarked, None)
  ∧ (rangeOrder allMarked).*2 = [key1] ++ key2 :: [key0]
  ∧ faults staleWorldScanned
    = replicate (length [key1]) None ++ Some "EIO" :: []
  ∧ (gc staleWorld).2
    = Some ("error deleting key " +:+ KeyString key2 +:+
            " from ipcache BPF map: " +:+ "EIO")
  ∧ deletesOf (eventsAfter (trace staleWorld) (trace (gc staleWorld).1))
    = [key1] ++ [key2]
  ∧ bpfMap (gc staleWorld).1 = deleteAll [key1] (bpfMap staleWorld).
Proof.
  assert (Hscan :
    Map_DumpWithCallback dumpOrder
      (staleCallback (LookupByPrefixRLocked staleWorld)) ∅ staleWorld
      = (staleWorldScanned, allMarked, None)) by (vm_compute; reflexivity).
  assert (Horder : (rangeOrder allMarked).*2 = [key1] ++ key2 :: [key0])
    by (vm_compute; reflexivity).
  assert (Hfaults :
    faults staleWorldScanned
      = replicate (length [key1]) None ++ Some "EIO" :: [])
    by reflexivity.
  split; [exact Hscan|]. split; [exact Horder|]. split; [exact Hfaults|].
  exact (garbageCollect_delete_failure KeyString FromKVStore FromAgentLocal
           dumpOrder rangeOrder staleWorld staleWorldScanned allMarked
           [key1] key2 [key0] "EIO" [] Hscan Horder Hfaults).
Defined.


End Witnesses.

(** ** Further properties of the listener and of the sweep *)

Section SweepProperties.

Context {Key : Type} `{Countable Key}.
Variable NewKey : net.IP -> net.IPMask -> Key.
Variable KeyString : Key -> string.
Context {source : Type} `{EqDecision source}.
Variables FromKVStore FromAgentLocal : source.
Variable dumpOrder :
  gmap Key RemoteEndpointInfo -> list (Key * RemoteEndpointInfo).
Variable rangeOrder : gmap string Key -> list (string * Key).

Local Abbreviation World := (World Key source).
Local Abbreviation OnChange :=
  (OnIPIdentityCacheChange (source := source) NewKey).
Local Abbreviation staleCallback :=
  (updateStaleEntriesFunction KeyString FromKVStore FromAgentLocal).
Local Abbreviation stale :=
  (isStale KeyString FromKVStore FromAgentLocal).
Local Abbreviation gc :=
  (garbageCollect KeyString FromKVStore FromAgentLocal dumpOrder rangeOrder).
Local Abbreviation keyOf cidr :=
  (NewKey (net.IPNet_IP cidr) (net.IPNet_Mask cidr)).

(** *** The listener, one event after another *)

Lemma OnChange_unsupported kind cidr oldHostIP newHostIP oldID newID
    (w : World) :
  bpfMap (OnChange (Unsupported kind) cidr oldHostIP newHostIP oldID newID w)
    = bpfMap w.
Proof. reflexivity. Qed.

(** X1: whatever the modification and whatever the kernel answers, the
    listener leaves every entry under another key than the one of the
    prefix as it is. *)
Theorem listener_touches_one_key modType cidr oldHostIP newHostIP oldID newID
    (w : World) k :
  k ≠ keyOf cidr →
  bpfMap (OnChange modType cidr oldHostIP newHostIP oldID newID w) !! k
    = bpfMap w !! k.
Proof.
  intros Hk. destruct modType as [| |kind].
  - destruct (OnChange_upsert NewKey cidr oldHostIP newHostIP oldID newID w)
      as (_ & -> & _).
    destruct (mjoin (head (faults w))); [done|]. by apply lookup_insert_ne.
  - destruct (OnChange_delete NewKey cidr oldHostIP newHostIP oldID newID w)
      as (_ & -> & _).
    destruct (mjoin (head (faults w))); [done|]. by apply lookup_delete_ne.
  - done.
Qed.

(** X2: an upsert followed by a delete of the same prefix, both applied by
    the kernel, leaves the map without the key of the prefix and otherwise
    as it was; when the key was absent before, the map is as it was. *)
Theorem upsert_then_delete cidr oldHostIP newHostIP oldID newID
    oldHostIP' newHostIP' oldID' newID' (w : World) :
  mjoin (head (faults w)) = None →
  mjoin (head (tail (faults w))) = None →
  let w1 := OnChange Upsert cidr oldHostIP newHostIP oldID newID w in
  let w2 := OnChange Delete cidr oldHostIP' newHostIP' oldID' newID' w1 in
  bpfMap w2 = delete (keyOf cidr) (bpfMap w)
  ∧ (bpfMap w !! keyOf cidr = None → bpfMap w2 = bpfMap w).
Proof.
  intros Hok1 Hok2 w1 w2.
  destruct (OnChange_upsert NewKey cidr oldHostIP newHostIP oldID newID w)
    as (_ & Hmap1 & _ & Hf1).
  destruct (OnChange_delete NewKey cidr oldHostIP' newHostIP' oldID' newID' w1)
    as (_ & Hmap2 & _).
  fold w1 in Hmap1, Hf1. fold w2 in Hmap2.
  rewrite Hf1, Hok2 in Hmap2. rewrite Hok1 in Hmap1.
  assert (Hdel : bpfMap w2 = delete (keyOf cidr) (bpfMap w)).
  { rewrite Hmap2, Hmap1. apply delete_insert_eq. }
  split; [exact Hdel|]. intros Habsent. rewrite Hdel. by apply delete_id.
Qed.

(** X3: upserts for prefixes with different keys commute: applied by the
    kernel in either order they leave the same map. *)
Theorem upserts_commute cidr1 cidr2 oldHostIP1 newHostIP1 oldID1 newID1
    oldHostIP2 newHostIP2 oldID2 newID2 (w : World) :
  keyOf cidr1 ≠ keyOf cidr2 →
  mjoin (head (faults w)) = None →
  mjoin (head (tail (faults w))) = None →
  bpfMap (OnChange Upsert cidr2 oldHostIP2 newHostIP2 oldID2 newID2
            (OnChange Upsert cidr1 oldHostIP1 newHostIP1 oldID1 newID1 w))
  = bpfMap (OnChange Upsert cidr1 oldHostIP1 newHostIP1 oldID1 newID1
              (OnChange Upsert cidr2 oldHostIP2 newHostIP2 oldID2 newID2 w)).
Proof.
  intros Hne Hok1 Hok2.
  destruct (OnChange_upsert NewKey cidr1 oldHostIP1 newHostIP1 oldID1 newID1 w)
    as (_ & Ha & Hea & Hfa).
  destruct (OnChange_upsert NewKey cidr2 oldHostIP2 newHostIP2 oldID2 newID2 w)
    as (_ & Hb & Heb & Hfb).
  destruct (OnChange_upsert NewKey cidr2 oldHostIP2 newHostIP2 oldID2 newID2
              (OnChange Upsert cidr1 oldHostIP1 newHostIP1 oldID1 newID1 w))
    as (_ & Hab & _).
  destruct (OnChange_upsert NewKey cidr1 oldHostIP1 newHostIP1 oldID1 newID1
              (OnChange Upsert cidr2 oldHostIP2 newHostIP2 oldID2 newID2 w))
    as (_ & Hba & _).
  rewrite Hab, Hba, Hfa, Hfb, Hok2, Ha, Hb, Hok1, Hea, Heb.
  by apply insert_insert_ne.
Qed.

(** X4: the value an upsert hands to the kernel always has the layout of a
    map value: an identity that fits 32 bits and a tunnel endpoint of four
    bytes, whatever the host IP and the identity are. *)
Theorem upsert_value_layout cidr oldHostIP newHostIP oldID newID
    (w : World) :
  let w' := OnChange Upsert cidr oldHostIP newHostIP oldID newID w in
  ∃ v,
    mapCalls (eventsAfter (trace w) (trace w')) =
      [EvUpdate (keyOf cidr) v (mjoin (head (faults w)))]
    ∧ (0 ≤ SecurityIdentity v < 2 ^ 32)%Z
    ∧ length (TunnelEndpoint v) = 4.
Proof.
  intros w'.
  destruct (OnChange_upsert NewKey cidr oldHostIP newHostIP oldID newID w)
    as (Hcalls & _).
  eexists. split; [exact Hcalls|]. split.
  - rewrite upsertValue_identity. unfold uint32. by apply Z.mod_pos_bound.
  - rewrite upsertValue_tunnel.
    destruct (net.To4 newHostIP) as [ip4|] eqn:H4; [|done].
    destruct (net.Equal _ _); [done|]. by eapply To4_length.
Qed.

(** X5: a host IP given in the 16-byte IPv4-in-IPv6 form is handled exactly
    like its 4-byte form; and the node's own address is recognised, and no
    tunnel endpoint written, whether [GetExternalIPv4] returns it in the
    4-byte or in the 16-byte form. *)
Theorem upsert_ipv4_mapped_host cidr oldHostIP oldID newID (w : World) ip4 :
  length ip4 = 4 →
  OnChange Upsert cidr oldHostIP (Some (net.v4InV6Prefix ++ ip4)) oldID newID w
    = OnChange Upsert cidr oldHostIP (Some ip4) oldID newID w
  ∧ (GetExternalIPv4 w = Some ip4
     ∨ GetExternalIPv4 w = Some (net.v4InV6Prefix ++ ip4) →
     TunnelEndpoint (upsertValue (GetExternalIPv4 w) (Some ip4) newID)
       = zeroIPv4).
Proof.
  intros Hlen.
  destruct ip4 as [|a [|b [|c [|d [|]]]]]; try discriminate. clear Hlen.
  split.
  - unfold OnIPIdentityCacheChange.
    assert (Hv : ∀ ext,
      upsertValue ext (Some (net.v4InV6Prefix ++ [a; b; c; d])) newID
        = upsertValue ext (Some [a; b; c; d]) newID) by reflexivity.
    by rewrite Hv.
  - intros Hext. rewrite upsertValue_tunnel.
    change (net.To4 (Some [a; b; c; d])) with (Some [a; b; c; d]).
    assert (Heq : net.Equal (Some [a; b; c; d]) (GetExternalIPv4 w) = true).
    { destruct Hext as [-> | ->]; unfold net.Equal, net.bytesEqual; simpl;
        by rewrite ?bool_decide_eq_true_2. }
    cbv beta iota. by rewrite Heq.
Qed.

(** *** What a sweep does to the map *)

Lemma staleCallback_isStale lookupByPrefix k v (m : gmap string Key) :
  staleCallback lookupByPrefix k v m =
    if stale lookupByPrefix k then <[KeyString k := k]> m else m.
Proof.
  unfold updateStaleEntriesFunction, isStale.
  destruct (lookupByPrefix (KeyString k)) as [i ex]. simpl.
  by destruct ex.
Qed.

Lemma runCallback_stale lookupByPrefix visited (acc : gmap string Key) s :
  is_Some (runCallback (staleCallback lookupByPrefix) visited acc !! s) ↔
  is_Some (acc !! s)
  ∨ (∃ k v, (k, v) ∈ visited ∧ KeyString k = s
            ∧ stale lookupByPrefix k = true).
Proof.
  rewrite runCallback_marked. unfold isStale. split.
  - intros [Hacc|(k & v & Hin & Hk & Hex & Hsrc)]; [by left|].
    right. exists k, v. subst s. rewrite Hex. simpl.
    by rewrite orb_true_iff, !bool_decide_eq_true.
  - intros [Hacc|(k & v & Hin & Hk & Hst)]; [by left|].
    right. exists k, v. subst s.
    apply andb_prop in Hst as [Hex Hsrc].
    rewrite orb_true_iff, !bool_decide_eq_true in Hsrc.
    apply negb_true_iff in Hex. done.
Qed.

Lemma lookup_deleteAll {V} ks (m : gmap Key V) k :
  deleteAll ks m !! k = if decide (k ∈ ks) then None else m !! k.
Proof.
  unfold deleteAll. revert m. induction ks as [|a ks IH]; intros m.
  - destruct (decide (k ∈ [])) as [Hin|_]; [by apply elem_of_nil in Hin|done].
  - change (foldl (λ m0 k0, delete k0 m0) m (a :: ks))
      with (foldl (λ m0 k0, delete k0 m0) (delete a m) ks).
    rewrite IH. destruct (decide (k ∈ ks)) as [Hin|Hin].
    + rewrite decide_True; [done|]. apply elem_of_cons. by right.
    + destruct (decide (k = a)) as [->|Hne].
      * rewrite decide_True by (apply elem_of_cons; by left).
        apply lookup_delete_eq.
      * rewrite decide_False.
        -- by apply lookup_delete_ne.
        -- intros [?|?]%elem_of_cons; done.
Qed.

Lemma deleteAll_subseteq {V} ks (m : gmap Key V) : deleteAll ks m ⊆ m.
Proof.
  apply map_subseteq_spec. intros k v. rewrite lookup_deleteAll.
  by case_decide.
Qed.

Local Abbreviation logOrDelete :=
  (fun e : Event Key =>
     match e with EvLog _ _ _ | EvDelete _ _ => True | _ => False end).

(** What the deletion loop does, whatever the kernel answers: it attempts
    the deletes of a prefix of [ks], all of which but possibly the last
    are applied. *)
Lemma deleteKeys_steps ks (w : World) :
  let r := deleteKeys KeyString ks w in
  ∃ applied attempted body,
    applied ≤ attempted
    ∧ trace r.1 = trace w ++ body
    ∧ Forall logOrDelete body
    ∧ deletesOf body = take attempted ks
    ∧ bpfMap r.1 = deleteAll (take applied ks) (bpfMap w)
    ∧ LookupByPrefixRLocked r.1 = LookupByPrefixRLocked w
    ∧ (∃ n, faults r.1 = drop n (faults w))
    ∧ (r.2 = None → applied = length ks ∧ attempted = length ks)
    ∧ (noFault w → r.2 = None).
Proof.
  revert w. induction ks as [|k ks IH]; intros w; simpl.
  - exists 0, 0, []. rewrite app_nil_r. split_and!; try done.
    by exists 0.
  - unfold Map_Delete. simpl.
    destruct (mjoin (head (faults w))) as [e|] eqn:Hf; simpl.
    + exists 0, 1, [EvLog Debug "deleting from ipcache BPF map" None;
                    EvDelete k (Some e)].
      rewrite <- app_assoc. split_and!; try done; try lia.
      * by repeat constructor.
      * by exists 1.
      * intros Hno. unfold noFault in Hno.
        destruct (faults w) as [|[e'|] fs]; simpl in Hf; try done.
        by inversion Hno.
    + match goal with
      | |- context [deleteKeys KeyString ks ?w1] =>
          destruct (IH w1)
            as (applied & attempted & body & Hle & Ht & Hbody & Hd & Hm
                & Hl & (n & Hfs) & Hnone & Hok)
      end.
      simpl in *.
      exists (S applied), (S attempted),
        (EvLog Debug "deleting from ipcache BPF map" None
         :: EvDelete k None :: body).
      rewrite Ht, <- !app_assoc. simpl. rewrite Hd.
      split_and!; try done; try lia.
      * by repeat constructor.
      * exists (S n). rewrite Hfs.
        destruct (faults w); simpl; [by rewrite drop_nil|done].
      * intros Hr. apply Hnone in Hr. lia.
      * intros Hno. apply Hok. unfold noFault in *. simpl.
        destruct (faults w); [done|]. by inversion Hno.
Qed.

Lemma dumpEntries_steps {A} (cb : DumpCallback A) es acc (w : World) :
  let r := dumpEntries cb es acc w in
  LookupByPrefixRLocked r.1.1 = LookupByPrefixRLocked w
  ∧ (∃ n, faults r.1.1 = drop n (faults w))
  ∧ (noFault w → r.2 = None ∧ r.1.2 = runCallback cb es acc).
Proof.
  revert acc w. induction es as [|[k v] es IH]; intros acc w; simpl.
  - split_and!; try done. by exists 0.
  - destruct (mjoin (head (faults w))) as [e|] eqn:Hf; simpl.
    + split_and!; try done; [by exists 1|].
      intros Hno. unfold noFault in Hno.
      destruct (faults w) as [|[e'|] fs]; simpl in Hf; try done.
      by inversion Hno.
    + destruct (IH (cb k v acc) (emit (EvCallback k v) (nextFault w).2))
        as (Hl & (n & Hfs) & Hok).
      split_and!; [exact Hl| |].
      * exists (S n). etrans; [exact Hfs|]. simpl.
        destruct (faults w); simpl; [by rewrite drop_nil|done].
      * intros Hno. apply Hok. unfold noFault in *. simpl.
        destruct (faults w); [done|]. by inversion Hno.
Qed.

Lemma Map_DumpWithCallback_steps {A} (cb : DumpCallback A) acc (w : World) :
  let r := Map_DumpWithCallback dumpOrder cb acc w in
  LookupByPrefixRLocked r.1.1 = LookupByPrefixRLocked w
  ∧ (∃ n, faults r.1.1 = drop n (faults w))
  ∧ (noFault w →
     r.2 = None ∧ r.1.2 = runCallback cb (dumpOrder (bpfMap w)) acc).
Proof.
  rewrite Map_DumpWithCallback_eq.
  destruct (mjoin (head (faults w))) as [e|] eqn:Hf; simpl.
  - split_and!; try done; [by exists 1|].
    intros Hno. unfold noFault in Hno.
    destruct (faults w) as [|[e'|] fs]; simpl in Hf; try done.
    by inversion Hno.
  - destruct (dumpEntries_steps cb (dumpOrder (bpfMap w)) acc (nextFault w).2)
      as (Hl & (n & Hfs) & Hok).
    split_and!; [exact Hl| |].
    + exists (S n). etrans; [exact Hfs|]. simpl.
      destruct (faults w); simpl; [by rewrite drop_nil|done].
    + intros Hno. apply Hok. unfold noFault in *. simpl.
      destruct (faults w); [done|]. by inversion Hno.
Qed.

Lemma noFault_drop (w w' : World) n :
  faults w' = drop n (faults w) → noFault w → noFault w'.
Proof. unfold noFault. intros ->. apply Forall_drop. Qed.

(** The keys a sweep ranges over when its scan has visited the first [n]
    entries. *)
Local Abbreviation markedAfter w n :=
  (runCallback (staleCallback (LookupByPrefixRLocked w))
     (take n (dumpOrder (bpfMap w))) ∅).

Local Abbreviation noUpdate :=
  (fun e : Event Key =>
     match e with EvUpdate _ _ _ => False | _ => True end).

Lemma callbackEvents_noUpdate es :
  Forall noUpdate (callbackEvents (Key := Key) es).
Proof. induction es; by constructor. Qed.

(** A sweep, step by step, whatever the kernel answers. *)
Lemma garbageCollect_steps (w : World) :
  let r := gc w in
  ∃ visited applied attempted,
    applied ≤ attempted
    ∧ deletesOf (eventsAfter (trace w) (trace r.1))
        = take attempted (rangeOrder (markedAfter w visited)).*2
    ∧ Forall noUpdate (eventsAfter (trace w) (trace r.1))
    ∧ bpfMap r.1
        = deleteAll (take applied (rangeOrder (markedAfter w visited)).*2)
            (bpfMap w)
    ∧ LookupByPrefixRLocked r.1 = LookupByPrefixRLocked w
    ∧ (∃ n, faults r.1 = drop n (faults w))
    ∧ (r.2 = None →
       length (dumpOrder (bpfMap w)) ≤ visited
       ∧ length (rangeOrder (markedAfter w visited)).*2 ≤ applied)
    ∧ (noFault w → r.2 = None).
Proof.
  intros r. subst r.
  destruct (garbageCollect_scan KeyString FromKVStore FromAgentLocal
              dumpOrder rangeOrder w)
    as (w1 & visited & -> & Hm & Hf & Ht & Hkeys & Hfull & Hl).
  destruct (Map_DumpWithCallback_steps
              (staleCallback (LookupByPrefixRLocked w)) ∅ w)
    as (_ & (n & Hfs) & Hok).
  rewrite Hfs in Hf. rewrite Hkeys.
  destruct (Map_DumpWithCallback dumpOrder _ ∅ w).2 as [e|] eqn:Hscan.
  - exists visited, 0, 0. cbn [fst snd emit trace bpfMap faults
                               LookupByPrefixRLocked].
    rewrite Ht, <- !app_assoc, eventsAfter_app.
    split_and!; try done.
    + cbn [app]. by rewrite <- app_assoc, deletesOf_sweep_prefix.
    + repeat (rewrite ?Forall_app, ?Forall_cons).
      split_and!; try done. apply callbackEvents_noUpdate.
    + by exists n.
    + intros Hno. by destruct (Hok Hno).
  - match goal with
    | |- context [deleteKeys KeyString ?ks w1] =>
        destruct (deleteKeys_steps ks w1)
          as (applied & attempted & body & Hle & Htd & Hbody & Hd & Hmd
              & Hld & (nd & Hfd) & Hnone & Hokd);
        destruct (deleteKeys KeyString ks w1) as [w2 r2]
    end.
    cbn [fst snd emit trace bpfMap faults LookupByPrefixRLocked] in *.
    exists visited, applied, attempted.
    rewrite Htd, Ht, <- !app_assoc, eventsAfter_app.
    split_and!; try done.
    + cbn [app]. rewrite <- !app_assoc, deletesOf_sweep_prefix.
      cbn [app deletesOf]. rewrite deletesOf_app. cbn [deletesOf].
      by rewrite app_nil_r.
    + assert (Hnb : Forall noUpdate body).
      { eapply Forall_impl; [exact Hbody|]. by intros []. }
      repeat (rewrite ?Forall_app, ?Forall_cons).
      split_and!; try done. apply callbackEvents_noUpdate.
    + by rewrite Hmd, Hm.
    + by rewrite Hld.
    + exists (nd + n). rewrite Hfd, Hf. by rewrite drop_drop, Nat.add_comm.
    + intros Hr2. destruct (Hnone Hr2) as [-> _]. split; [by apply Hfull|done].
    + intros Hno. apply Hokd. unfold noFault. rewrite Hf.
      by apply Forall_drop.
Qed.

Lemma stale_same_prefix lookupByPrefix (k k' : Key) :
  KeyString k = KeyString k' →
  stale lookupByPrefix k = stale lookupByPrefix k'.
Proof. unfold isStale. by intros ->. Qed.

(** Every key the deletion loop ranges over is a stale key of the map, when
    the scan and the range hand out entries of their maps only. *)
Lemma ranged_key_stale (w : World) n k :
  (∀ m kv, kv ∈ dumpOrder m → kv ∈ map_to_list m) →
  (∀ m sk, sk ∈ rangeOrder m → sk ∈ map_to_list m) →
  k ∈ (rangeOrder (markedAfter w n)).*2 →
  is_Some (bpfMap w !! k) ∧ stale (LookupByPrefixRLocked w) k = true.
Proof.
  intros Hdump Hrange Hk.
  apply list_elem_of_fmap in Hk as ([s k'] & -> & Hin). simpl.
  apply Hrange, elem_of_map_to_list in Hin.
  assert (Hmarked : is_Some (markedAfter w n !! s)) by by eexists.
  apply runCallback_stale in Hmarked
    as [Hempty|(k0 & v0 & _ & Hk0 & Hst)];
    [rewrite lookup_empty in Hempty; by destruct Hempty|].
  apply runCallback_value in Hin as [Hempty|(Hs & v & Hv)];
    [by rewrite lookup_empty in Hempty|].
  split.
  - exists v. apply elem_of_map_to_list, Hdump.
    by eapply subseteq_take.
  - rewrite <- Hst. apply stale_same_prefix. congruence.
Qed.

(** X6: a sweep never writes an entry: it issues no point update, and the
    map it leaves is contained in the map it found, whatever the kernel
    answers. *)
Theorem sweep_only_removes (w : World) :
  bpfMap (gc w).1 ⊆ bpfMap w
  ∧ ∀ e, e ∈ mapCalls (eventsAfter (trace w) (trace (gc w).1)) →
         ∃ k r, e = EvDelete k r.
Proof.
  destruct (garbageCollect_steps w)
    as (visited & applied & attempted & _ & _ & Hno & -> & _).
  split; [apply deleteAll_subseteq|].
  intros e He. unfold mapCalls in He.
  apply list_elem_of_In, filter_In in He as [He Hcall].
  apply list_elem_of_In in He.
  rewrite Forall_forall in Hno. specialize (Hno e He).
  destruct e; try done. by eexists _, _.
Qed.

(** X7: every point delete a sweep issues is for a key that is in the map
    and stale: its lookup reports it absent, with a source the sweep may
    delete. *)
Theorem sweep_deletes_only_stale (w : World) k :
  (∀ m kv, kv ∈ dumpOrder m → kv ∈ map_to_list m) →
  (∀ m sk, sk ∈ rangeOrder m → sk ∈ map_to_list m) →
  k ∈ deletesOf (eventsAfter (trace w) (trace (gc w).1)) →
  is_Some (bpfMap w !! k) ∧ stale (LookupByPrefixRLocked w) k = true.
Proof.
  intros Hdump Hrange.
  destruct (garbageCollect_steps w)
    as (visited & applied & attempted & _ & -> & _).
  intros Hk. apply (ranged_key_stale w visited k Hdump Hrange).
  by eapply subseteq_take.
Qed.

Lemma sweep_keeps_lookup (w : World) k v :
  (∀ m kv, kv ∈ dumpOrder m → kv ∈ map_to_list m) →
  (∀ m sk, sk ∈ rangeOrder m → sk ∈ map_to_list m) →
  bpfMap w !! k = Some v →
  stale (LookupByPrefixRLocked w) k = false →
  bpfMap (gc w).1 !! k = Some v.
Proof.
  intros Hdump Hrange Hk Hst.
  destruct (garbageCollect_steps w)
    as (visited & applied & attempted & _ & _ & _ & -> & _).
  rewrite lookup_deleteAll. rewrite decide_False; [done|].
  intros Hin. apply subseteq_take in Hin.
  destruct (ranged_key_stale w visited k Hdump Hrange Hin) as [_ Htrue].
  congruence.
Qed.

(** X8: an entry that is not stale, because the cache knows its prefix or
    because the source the lookup returns is not one the sweep may delete,
    survives every sweep with its value, whatever the kernel answers. *)
Theorem sweep_keeps_entries_not_stale (w : World) k v :
  (∀ m kv, kv ∈ dumpOrder m → kv ∈ map_to_list m) →
  (∀ m sk, sk ∈ rangeOrder m → sk ∈ map_to_list m) →
  bpfMap w !! k = Some v →
  (LookupByPrefixRLocked w (KeyString k)).2 = true
  ∨ (Source (LookupByPrefixRLocked w (KeyString k)).1 ≠ FromKVStore
     ∧ Source (LookupByPrefixRLocked w (KeyString k)).1 ≠ FromAgentLocal) →
  bpfMap (gc w).1 !! k = Some v.
Proof.
  intros Hdump Hrange Hk Hnot.
  apply sweep_keeps_lookup; [done..|].
  unfold isStale. destruct Hnot as [-> | [Hkv Hal]]; [done|].
  rewrite !bool_decide_eq_false_2 by done. apply andb_false_r.
Qed.

Lemma sweep_nothing_stale (w : World) :
  (∀ m kv, kv ∈ dumpOrder m → kv ∈ map_to_list m) →
  (∀ m sk, sk ∈ rangeOrder m → sk ∈ map_to_list m) →
  (∀ k v, bpfMap w !! k = Some v →
          stale (LookupByPrefixRLocked w) k = false) →
  deletesOf (eventsAfter (trace w) (trace (gc w).1)) = []
  ∧ bpfMap (gc w).1 = bpfMap w.
Proof.
  intros Hdump Hrange Hnone.
  destruct (garbageCollect_steps w)
    as (visited & applied & attempted & Hle & -> & _ & -> & _).
  assert (Hnil : take attempted (rangeOrder (markedAfter w visited)).*2 = []).
  { destruct (take attempted _) as [|k ks] eqn:Hks; [done|].
    assert (Hin : k ∈ (rangeOrder (markedAfter w visited)).*2).
    { eapply subseteq_take. rewrite Hks. by left. }
    destruct (ranged_key_stale w visited k Hdump Hrange Hin)
      as [[v Hv] Htrue].
    rewrite (Hnone k v Hv) in Htrue. discriminate. }
  split; [exact Hnil|].
  replace applied with (applied `min` attempted) by lia.
  by rewrite <- take_take, Hnil, take_nil.
Qed.

(** X9: when no entry of the map is stale, a sweep issues no point delete
    and leaves the map as it is; in particular when every lookup that
    reports a prefix absent returns a source other than [FromKVStore] and
    [FromAgentLocal]. *)
Theorem sweep_without_stale_entries (w : World) :
  (∀ m kv, kv ∈ dumpOrder m → kv ∈ map_to_list m) →
  (∀ m sk, sk ∈ rangeOrder m → sk ∈ map_to_list m) →
  (∀ k v, bpfMap w !! k = Some v →
          (LookupByPrefixRLocked w (KeyString k)).2 = true
          ∨ (Source (LookupByPrefixRLocked w (KeyString k)).1 ≠ FromKVStore
             ∧ Source (LookupByPrefixRLocked w (KeyString k)).1
               ≠ FromAgentLocal)) →
  deletesOf (eventsAfter (trace w) (trace (gc w).1)) = []
  ∧ bpfMap (gc w).1 = bpfMap w.
Proof.
  intros Hdump Hrange Hnone. apply sweep_nothing_stale; [done..|].
  intros k v Hk. unfold isStale.
  destruct (Hnone k v Hk) as [-> | [Hkv Hal]]; [done|].
  rewrite !bool_decide_eq_false_2 by done. apply andb_false_r.
Qed.

Lemma NoDup_fmap_inj_on {A B} (f : A → B) (l : list A) x y :
  NoDup (f <$> l) → x ∈ l → y ∈ l → f x = f y → x = y.
Proof.
  induction l as [|a l IH]; simpl; [by intros _ ?%elem_of_nil|].
  intros [Ha Hl]%NoDup_cons [->|Hx]%elem_of_cons [->|Hy]%elem_of_cons Hf.
  - done.
  - destruct Ha. rewrite Hf. by apply list_elem_of_fmap_2.
  - destruct Ha. rewrite <- Hf. by apply list_elem_of_fmap_2.
  - by apply IH.
Qed.

Lemma distinctPrefixes_inj (m : gmap Key RemoteEndpointInfo) k1 k2 :
  distinctPrefixes KeyString m →
  is_Some (m !! k1) → is_Some (m !! k2) →
  KeyString k1 = KeyString k2 → k1 = k2.
Proof.
  intros Hnd [v1 H1] [v2 H2]. apply (NoDup_fmap_inj_on _ _ _ _ Hnd).
  - apply list_elem_of_fmap. exists (k1, v1). by rewrite elem_of_map_to_list.
  - apply list_elem_of_fmap. exists (k2, v2). by rewrite elem_of_map_to_list.
Qed.

(** The map a sweep that reports success leaves. *)
Lemma sweep_reported_success (w : World) :
  (∀ m, dumpOrder m ≡ₚ map_to_list m) →
  (∀ m, rangeOrder m ≡ₚ map_to_list m) →
  (∀ k1 k2, is_Some (bpfMap w !! k1) → is_Some (bpfMap w !! k2) →
            KeyString k1 = KeyString k2 → k1 = k2) →
  (gc w).2 = None →
  bpfMap (gc w).1 =
    filter (λ kv, stale (LookupByPrefixRLocked w) kv.1 = false) (bpfMap w).
Proof.
  intros Hdump Hrange Hinj Hok.
  assert (Hdump' : ∀ m kv, kv ∈ dumpOrder m → kv ∈ map_to_list m).
  { intros m kv. by rewrite (Hdump m). }
  assert (Hrange' : ∀ m sk, sk ∈ rangeOrder m → sk ∈ map_to_list m).
  { intros m sk. by rewrite (Hrange m). }
  destruct (garbageCollect_steps w)
    as (visited & applied & attempted & _ & _ & _ & Hmap & _ & _ & Hdone & _).
  destruct (Hdone Hok) as [Hvisited Happlied].
  rewrite Hmap, (take_ge _ applied) by done. clear Hmap.
  apply map_eq. intros k. rewrite lookup_deleteAll.
  destruct (decide (k ∈ _)) as [Hin|Hout].
  - destruct (ranged_key_stale w visited k Hdump' Hrange' Hin) as [_ Hst].
    symmetry. apply map_lookup_filter_None. right. intros v _. simpl.
    by rewrite Hst.
  - destruct (bpfMap w !! k) as [v|] eqn:Hk.
    + symmetry. apply map_lookup_filter_Some. split; [done|]. simpl.
      destruct (stale (LookupByPrefixRLocked w) k) eqn:Hst; [|done].
      exfalso. apply Hout.
      assert (Hvis : (k, v) ∈ take visited (dumpOrder (bpfMap w))).
      { rewrite take_ge by done. rewrite (Hdump (bpfMap w)).
        by apply elem_of_map_to_list. }
      assert (Hmarked : is_Some (markedAfter w visited !! KeyString k)).
      { apply runCallback_stale. right. by exists k, v. }
      destruct Hmarked as [k' Hk'].
      pose proof Hk' as Hval.
      apply runCallback_value in Hval as [Hempty|(Hs & v' & Hv')];
        [by rewrite lookup_empty in Hempty|].
      assert (k' = k) as ->.
      { apply Hinj; [|by eexists|done].
        exists v'. apply elem_of_map_to_list, Hdump'.
        by eapply subseteq_take. }
      apply list_elem_of_fmap. exists (KeyString k, k). split; [done|].
      rewrite (Hrange _). by apply elem_of_map_to_list.
    + symmetry. apply map_lookup_filter_None. by left.
Qed.

(** X10: the kernel failing nothing, a sweep reports success; and when a
    sweep reports success, in a map whose keys have different prefix
    strings, the map it leaves holds exactly the entries that were not
    stale. *)
Theorem sweep_success_removes_stale (w : World) :
  (∀ m, dumpOrder m ≡ₚ map_to_list m) →
  (∀ m, rangeOrder m ≡ₚ map_to_list m) →
  distinctPrefixes KeyString (bpfMap w) →
  (noFault w → (gc w).2 = None)
  ∧ ((gc w).2 = None →
     bpfMap (gc w).1 =
       filter (λ kv, stale (LookupByPrefixRLocked w) kv.1 = false)
         (bpfMap w)).
Proof.
  intros Hdump Hrange Hnd. split.
  - destruct (garbageCollect_steps w)
      as (visited & applied & attempted & _ & _ & _ & _ & _ & _ & _ & Hok).
    exact Hok.
  - apply sweep_reported_success; [done..|].
    intros k1 k2. by apply distinctPrefixes_inj.
Qed.

(** X11: whatever a sweep managed to do before it failed, the next sweep
    that reports success leaves exactly the entries of the original map
    that were not stale. *)
Theorem sweep_repairs_failed_sweep (w : World) :
  (∀ m, dumpOrder m ≡ₚ map_to_list m) →
  (∀ m, rangeOrder m ≡ₚ map_to_list m) →
  distinctPrefixes KeyString (bpfMap w) →
  (gc (gc w).1).2 = None →
  bpfMap (gc (gc w).1).1 =
    filter (λ kv, stale (LookupByPrefixRLocked w) kv.1 = false) (bpfMap w).
Proof.
  intros Hdump Hrange Hnd Hok.
  assert (Hdump' : ∀ m kv, kv ∈ dumpOrder m → kv ∈ map_to_list m).
  { intros m kv. by rewrite (Hdump m). }
  assert (Hrange' : ∀ m sk, sk ∈ rangeOrder m → sk ∈ map_to_list m).
  { intros m sk. by rewrite (Hrange m). }
  destruct (garbageCollect_steps w)
    as (visited & applied & attempted & _ & _ & _ & Hmap & Hl & _).
  assert (Hsub : bpfMap (gc w).1 ⊆ bpfMap w).
  { rewrite Hmap. apply deleteAll_subseteq. }
  rewrite sweep_reported_success; [|done|done| |done].
  - rewrite Hl. apply map_eq. intros k. apply option_eq. intros v.
    rewrite !map_lookup_filter_Some. simpl. split.
    + intros [Hk Hst]. split; [|done]. by eapply lookup_weaken.
    + intros [Hk Hst]. split; [|done]. by apply sweep_keeps_lookup.
  - intros k1 k2 H1 H2. apply (distinctPrefixes_inj (bpfMap w)); [done|..].
    + by eapply lookup_weaken_is_Some.
    + by eapply lookup_weaken_is_Some.
Qed.

(** X12: after a sweep that reports success, a second sweep issues no
    point delete and leaves the map as it is, whatever the kernel
    answers. *)
Theorem sweep_idempotent (w : World) :
  (∀ m, dumpOrder m ≡ₚ map_to_list m) →
  (∀ m, rangeOrder m ≡ₚ map_to_list m) →
  distinctPrefixes KeyString (bpfMap w) →
  (gc w).2 = None →
  deletesOf (eventsAfter (trace (gc w).1) (trace (gc (gc w).1).1)) = []
  ∧ bpfMap (gc (gc w).1).1 = bpfMap (gc w).1.
Proof.
  intros Hdump Hrange Hnd Hok.
  assert (Hdump' : ∀ m kv, kv ∈ dumpOrder m → kv ∈ map_to_list m).
  { intros m kv. by rewrite (Hdump m). }
  assert (Hrange' : ∀ m sk, sk ∈ rangeOrder m → sk ∈ map_to_list m).
  { intros m sk. by rewrite (Hrange m). }
  destruct (garbageCollect_steps w)
    as (visited & applied & attempted & _ & _ & _ & _ & Hl & _).
  apply sweep_nothing_stale; [done..|].
  intros k v. rewrite Hl, sweep_reported_success; [|done|done| |done].
  - by intros [_ Hst]%map_lookup_filter_Some.
  - intros k1 k2. by apply distinctPrefixes_inj.
Qed.

End SweepProperties.

(** ** Properties of the entities *)

Section EntityProperties.

Context {EndpointSelector LabelArray : Type}.
Variable sliceMatches : list EndpointSelector -> LabelArray -> bool.
Variables wildcard world host init clusterEndpoint : EndpointSelector.

Local Abbreviation initialMapping :=
  (api.EntitySelectorMapping wildcard world host init clusterEndpoint).
Local Abbreviation selectorsOf mapping :=
  (fun e : api.Entity => default [] (mapping !! e)).

(** X13: a slice of entities matches exactly when one of its entities
    does; the empty slice matches nothing. *)
Theorem EntitySlice_Matches_exists
    (mapping : gmap api.Entity (list EndpointSelector)) s ctx :
  api.EntitySlice_Matches sliceMatches mapping s ctx = true ↔
  ∃ e, e ∈ s ∧ api.Entity_Matches sliceMatches mapping e ctx = true.
Proof.
  induction s as [|e s IH]; simpl.
  - split; [done|]. by intros (e & Hin%elem_of_nil & _).
  - destruct (api.Entity_Matches sliceMatches mapping e ctx) eqn:He.
    + split; [|done]. intros _. exists e. split; [by left|done].
    + rewrite IH. split.
      * intros (e' & Hin & He'). exists e'. split; [by right|done].
      * intros (e' & [->|Hin]%elem_of_cons & He'); [congruence|].
        by exists e'.
Qed.

Lemma GetAsEndpointSelectors_foldl
    (mapping : gmap api.Entity (list EndpointSelector)) s slice :
  foldl (fun slice e =>
           match mapping !! e with
           | Some selector => slice ++ selector
           | None => slice
           end) slice s
  = slice ++ concat (selectorsOf mapping <$> s).
Proof.
  revert slice. induction s as [|e s IH]; intros slice; simpl.
  - by rewrite app_nil_r.
  - rewrite IH. destruct (mapping !! e); simpl; [|done].
    by rewrite app_assoc.
Qed.

(** X14: [GetAsEndpointSelectors] is the concatenation, in the order of the
    slice, of the selectors the mapping has for each entity, an entity the
    mapping does not know contributing none; so it distributes over the
    concatenation of slices. *)
Theorem GetAsEndpointSelectors_concat
    (mapping : gmap api.Entity (list EndpointSelector)) s :
  api.GetAsEndpointSelectors mapping s = concat (selectorsOf mapping <$> s)
  ∧ ∀ s1 s2,
      api.GetAsEndpointSelectors mapping (s1 ++ s2)
      = api.GetAsEndpointSelectors mapping s1
        ++ api.GetAsEndpointSelectors mapping s2.
Proof.
  unfold api.GetAsEndpointSelectors. split.
  - by rewrite GetAsEndpointSelectors_foldl.
  - intros s1 s2. rewrite !GetAsEndpointSelectors_foldl. simpl.
    by rewrite fmap_app, concat_app.
Qed.

(** X15: when a slice of selectors matches exactly when one of its parts
    does, a slice of entities matches the labels exactly when the selectors
    [GetAsEndpointSelectors] returns for it do. *)
Theorem EntitySlice_Matches_selectors
    (mapping : gmap api.Entity (list EndpointSelector)) s ctx :
  (∀ ctx, sliceMatches [] ctx = false) →
  (∀ a b ctx,
     sliceMatches (a ++ b) ctx = sliceMatches a ctx || sliceMatches b ctx) →
  api.EntitySlice_Matches sliceMatches mapping s ctx
  = sliceMatches (api.GetAsEndpointSelectors mapping s) ctx.
Proof.
  intros Hnil Happ. unfold api.GetAsEndpointSelectors.
  rewrite GetAsEndpointSelectors_foldl, app_nil_l.
  induction s as [|e s IH]; [simpl; by rewrite Hnil|].
  rewrite fmap_cons. cbn [concat api.EntitySlice_Matches].
  rewrite Happ, <- IH. unfold api.Entity_Matches.
  destruct (mapping !! e); simpl; [|by rewrite Hnil].
  by destruct (sliceMatches _ ctx).
Qed.

(** X16: with the mapping the package starts with, an entity that is none
    of [all], [world], [cluster], [host] and [init] never matches, and
    wherever it stands in a slice the slice matches and expands as without
    it. *)
Theorem unknown_entity_ignored (e : api.Entity) s1 s2 ctx :
  e ∉ [api.EntityAll; api.EntityWorld; api.EntityCluster;
       api.EntityHost; api.EntityInit] →
  api.Entity_Matches sliceMatches initialMapping e ctx = false
  ∧ api.EntitySlice_Matches sliceMatches initialMapping (s1 ++ e :: s2) ctx
    = api.EntitySlice_Matches sliceMatches initialMapping (s1 ++ s2) ctx
  ∧ api.GetAsEndpointSelectors initialMapping (s1 ++ e :: s2)
    = api.GetAsEndpointSelectors initialMapping (s1 ++ s2).
Proof.
  intros Hnot.
  assert (Hnone : initialMapping !! e = None).
  { unfold api.EntitySelectorMapping.
    rewrite !lookup_insert_ne; [apply lookup_empty|..];
      intros <-; apply Hnot; set_solver. }
  assert (Hmatch : api.Entity_Matches sliceMatches initialMapping e ctx
                   = false).
  { unfold api.Entity_Matches. by rewrite Hnone. }
  split; [exact Hmatch|]. split.
  - induction s1 as [|e1 s1 IH]; simpl; [by rewrite Hmatch|].
    by rewrite IH.
  - unfold api.GetAsEndpointSelectors.
    rewrite !GetAsEndpointSelectors_foldl. simpl.
    rewrite !fmap_app, !concat_app. simpl. by rewrite Hnone.
Qed.

End EntityProperties.

(** ** Properties of the proxy redirects *)

Section RedirectProperties.

Context {EndpointUpdater L7ParserType Time RedirectImplementation : Type}.
Context {Selector : Type} `{Countable Selector} {L7Rules L4Filter : Type}.
Variable L7RulesPerEp : L4Filter -> gmap Selector L7Rules.
Variable rangeOrder : gmap Selector L7Rules -> list (Selector * L7Rules).

Local Abbreviation Redirect :=
  (proxy.Redirect (EndpointUpdater := EndpointUpdater)
     (L7ParserType := L7ParserType) (Time := Time)
     (RedirectImplementation := RedirectImplementation)
     (Selector := Selector) (L7Rules := L7Rules)).

Lemma foldl_insert_list_to_map (l : list (Selector * L7Rules)) :
  foldl (fun (rules : gmap Selector L7Rules) kv => <[kv.1 := kv.2]> rules)
    ∅ l
  = list_to_map (reverse l).
Proof.
  induction l as [|kv l IH] using rev_ind; [done|].
  rewrite foldl_snoc, reverse_snoc, IH. by destruct kv.
Qed.

(** X17: [updateRules] leaves the redirect with exactly the rules of the
    filter, in whatever order the loop ranges over them, and with every
    other field as it was: no rule the redirect had before survives, and
    applying it again changes nothing. *)
Theorem updateRules_replaces (r : Redirect) (l4 : L4Filter) :
  rangeOrder (L7RulesPerEp l4) ≡ₚ map_to_list (L7RulesPerEp l4) →
  proxy.updateRules L7RulesPerEp rangeOrder r l4
    = {| proxy.endpointID := proxy.endpointID r;
         proxy.id := proxy.id r;
         proxy.ingress := proxy.ingress r;
         proxy.localEndpoint := proxy.localEndpoint r;
         proxy.parserType := proxy.parserType r;
         proxy.created := proxy.created r;
         proxy.implementation := proxy.implementation r;
         proxy.ProxyPort := proxy.ProxyPort r;
         proxy.lastUpdated := proxy.lastUpdated r;
         proxy.rules := L7RulesPerEp l4 |}
  ∧ proxy.updateRules L7RulesPerEp rangeOrder
      (proxy.updateRules L7RulesPerEp rangeOrder r l4) l4
    = proxy.updateRules L7RulesPerEp rangeOrder r l4.
Proof.
  intros Hperm. split; [|done]. unfold proxy.updateRules. f_equal.
  rewrite foldl_insert_list_to_map.
  rewrite <- (list_to_map_to_list (L7RulesPerEp l4)) at 2.
  symmetry. apply list_to_map_proper; [apply NoDup_fst_map_to_list|].
  by rewrite reverse_Permutation, Hperm.
Qed.

End RedirectProperties.

(** ** Properties of the monitor listener *)

Section MonitorProperties.

Import monitor.

Context {Payload : Type}.
Variable BuildMessage : Payload -> list byte + error.
Variable IsDisconnected : error -> bool.

Local Abbreviation loop := (drainLoop BuildMessage IsDisconnected).
Local Abbreviation drain := (drainQueue BuildMessage IsDisconnected).
Local Abbreviation msgs := (messages BuildMessage).

Lemma drainLoop_no_cleanup received outcomes :
  (EvClose ∉ (loop received outcomes).1)
  ∧ (EvCleanup ∉ (loop received outcomes).1).
Proof.
  revert outcomes. induction received as [|pl received IH]; intros outcomes;
    simpl.
  - split; by intros ?%elem_of_nil.
  - destruct (BuildMessage pl) as [buf|err].
    + destruct (mjoin (head outcomes)) as [e|]; simpl.
      * destruct (IsDisconnected e); split;
          intros Hin; repeat (apply elem_of_cons in Hin as [Hin|Hin];
                              [discriminate|]); by apply elem_of_nil in Hin.
      * specialize (IH (tail outcomes)).
        destruct (loop received (tail outcomes)) as [evs ret]. simpl in *.
        destruct IH as [Hc Hf].
        split; intros [Hin|Hin]%elem_of_cons; done.
    + specialize (IH outcomes).
      destruct (loop received outcomes) as [evs ret]. simpl in *.
      destruct IH as [Hc Hf].
      split; intros [Hin|Hin]%elem_of_cons; done.
Qed.

Lemma drainLoop_returned received outcomes :
  (loop received outcomes).2 = true ↔
  ∃ buf e, EvWrite buf (Some e) ∈ (loop received outcomes).1.
Proof.
  revert outcomes. induction received as [|pl received IH]; intros outcomes;
    simpl.
  - split; [done|]. by intros (buf & e & Hin%elem_of_nil).
  - destruct (BuildMessage pl) as [buf|err].
    + destruct (mjoin (head outcomes)) as [e|]; simpl.
      * split; [|done]. intros _. exists buf, e. by left.
      * specialize (IH (tail outcomes)).
        destruct (loop received (tail outcomes)) as [evs ret]. simpl in *.
        rewrite IH. split.
        -- intros (b & e & Hin). exists b, e. by right.
        -- intros (b & e & [Hin|Hin]%elem_of_cons); [done|]. by exists b, e.
    + specialize (IH outcomes).
      destruct (loop received outcomes) as [evs ret]. simpl in *.
      rewrite IH. split.
      * intros (b & e & Hin). exists b, e. by right.
      * intros (b & e & [Hin|Hin]%elem_of_cons); [done|]. by exists b, e.
Qed.

(** The writes of the loop: the messages of a prefix of the payloads that
    can be built, each written with success but possibly the last. *)
Lemma drainLoop_writes received outcomes :
  ∃ n,
    (writesOf (loop received outcomes).1).*1 = take n (msgs received)
    ∧ (∀ i b e,
         writesOf (loop received outcomes).1 !! i = Some (b, Some e) →
         S i = length (writesOf (loop received outcomes).1)
         ∧ (loop received outcomes).2 = true)
    ∧ ((loop received outcomes).2 = false → length (msgs received) ≤ n).
Proof.
  revert outcomes. induction received as [|pl received IH]; intros outcomes;
    simpl.
  - exists 0. split_and!; [done|by intros i b e ?|simpl; lia].
  - unfold messages. simpl. destruct (BuildMessage pl) as [buf|err].
    + destruct (mjoin (head outcomes)) as [e|]; simpl.
      * exists 1. destruct (IsDisconnected e); simpl; (split_and!;
          [done
          |intros [|[|i]] b e' Hi; simpl in Hi; by simplify_eq
          |intros [=]]).
      * destruct (IH (tail outcomes)) as (n & Hpre & Hlast & Hall).
        destruct (loop received (tail outcomes)) as [evs ret]. simpl in *.
        exists (S n). simpl. split_and!.
        -- f_equal. exact Hpre.
        -- intros [|i] b e Hi; simpl in Hi; [by simplify_eq|].
           destruct (Hlast i b e Hi) as [Hlen Hret]. by rewrite Hlen.
        -- intros Hret. apply Hall in Hret. unfold messages in Hret. lia.
    + destruct (IH outcomes) as (n & Hpre & Hlast & Hall).
      destruct (loop received outcomes) as [evs ret]. simpl in *.
      by exists n.
Qed.

Lemma writesOf_app evs evs' :
  writesOf (evs ++ evs') = writesOf evs ++ writesOf evs'.
Proof.
  induction evs as [|ev evs IH]; [done|].
  destruct ev; simpl; by rewrite ?IH.
Qed.

(** X18: [drainQueue] returns exactly when the queue is closed or a write
    to the connection fails; when it returns, closing the connection and
    calling [cleanupFn], in this order, are the last things it does, and it
    does each once; as long as it waits for a payload it does neither. *)
Theorem drainQueue_cleanup received closed outcomes :
  let r := drainQueue BuildMessage IsDisconnected received closed outcomes in
  (r.2 = Returned ↔
   closed = true ∨ ∃ buf e, EvWrite buf (Some e) ∈ r.1)
  ∧ match r.2 with
    | Returned =>
        ∃ body,
          r.1 = body ++ [EvClose; EvCleanup]
          ∧ (EvClose ∉ body) ∧ (EvCleanup ∉ body)
    | Waiting => (EvClose ∉ r.1) ∧ (EvCleanup ∉ r.1)
    end.
Proof.
  intros r. subst r. unfold drainQueue.
  pose proof (drainLoop_no_cleanup received outcomes) as Hno.
  pose proof (drainLoop_returned received outcomes) as Hret.
  destruct (loop received outcomes) as [evs ret]. simpl in *.
  destruct ret; simpl.
  - split; [|by exists evs]. split; [|done]. intros _. right.
    destruct Hret as [Hret _]. destruct (Hret eq_refl) as (buf & e & Hin).
    exists buf, e. apply elem_of_app. by left.
  - destruct closed; simpl.
    + split; [|by exists evs]. split; [by left|done].
    + split; [|done]. split; [done|].
      intros [?|Hw]; [done|]. by apply Hret in Hw.
Qed.

(** Each write of the loop gets the next outcome of the connection. *)
Lemma drainLoop_results received outcomes i b o :
  writesOf (loop received outcomes).1 !! i = Some (b, o) →
  o = mjoin (outcomes !! i).
Proof.
  revert outcomes i. induction received as [|pl received IH];
    intros outcomes i; simpl; [done|].
  destruct (BuildMessage pl) as [buf|err].
  - destruct (mjoin (head outcomes)) as [e|] eqn:Hhead; simpl.
    + rewrite head_lookup in Hhead.
      destruct (IsDisconnected e); simpl;
        destruct i as [|[|i]]; simpl; intros Hi; by simplify_eq.
    + specialize (IH (tail outcomes)).
      destruct (loop received (tail outcomes)) as [evs ret]. simpl in *.
      destruct i as [|i]; simpl; intros Hi.
      * rewrite head_lookup in Hhead. by simplify_eq.
      * rewrite <- lookup_tail. by apply IH.
  - specialize (IH outcomes).
    destruct (loop received outcomes) as [evs ret]. simpl in *.
    apply IH.
Qed.

(** The loop is left by [return] only after a write that failed. *)
Lemma drainLoop_failed received outcomes :
  (loop received outcomes).2 = true →
  ∃ i b e, writesOf (loop received outcomes).1 !! i = Some (b, Some e).
Proof.
  revert outcomes. induction received as [|pl received IH]; intros outcomes;
    simpl; [done|].
  destruct (BuildMessage pl) as [buf|err].
  - destruct (mjoin (head outcomes)) as [e|]; simpl.
    + intros _. exists 0, buf, e. by destruct (IsDisconnected e).
    + specialize (IH (tail outcomes)).
      destruct (loop received (tail outcomes)) as [evs ret]. simpl in *.
      intros Hret. destruct (IH Hret) as (i & b & e & Hi).
      by exists (S i), b, e.
  - specialize (IH outcomes).
    destruct (loop received outcomes) as [evs ret]. simpl in *.
    exact IH.
Qed.

(** X19: the buffers [drainQueue] writes to the connection are the
    messages of the payloads that can be built, in the order received, up
    to and including the first write that fails: each write gets the next
    outcome of the connection; a write that fails is the last one, and
    [drainQueue] returns after it; and when no write fails, every message
    is written. *)
Theorem drainQueue_writes received closed outcomes :
  let writes :=
    writesOf (drainQueue BuildMessage IsDisconnected
                received closed outcomes).1 in
  (∃ n, writes.*1 = take n (messages BuildMessage received))
  ∧ (∀ i b o, writes !! i = Some (b, o) → o = mjoin (outcomes !! i))
  ∧ (∀ i b e,
       writes !! i = Some (b, Some e) →
       S i = length writes
       ∧ (drainQueue BuildMessage IsDisconnected
            received closed outcomes).2 = Returned)
  ∧ ((∀ i b o, writes !! i = Some (b, o) → o = None) →
     writes.*1 = messages BuildMessage received).
Proof.
  intros writes. subst writes. unfold drainQueue.
  destruct (drainLoop_writes received outcomes) as (n & Hpre & Hlast & Hall).
  pose proof (drainLoop_results received outcomes) as Hres.
  pose proof (drainLoop_failed received outcomes) as Hfailed.
  destruct (loop received outcomes) as [evs ret]. simpl in *.
  assert (Hw : writesOf (if ret || closed
                         then (evs ++ [EvClose; EvCleanup], Returned)
                         else (evs, Waiting)).1 = writesOf evs).
  { destruct (ret || closed); simpl; [|done].
    by rewrite writesOf_app, app_nil_r. }
  rewrite Hw. split_and!.
  - by exists n.
  - exact Hres.
  - intros i b e Hi. destruct (Hlast i b e Hi) as [Hlen ->]. done.
  - intros Hnone. rewrite Hpre. apply take_ge, Hall.
    destruct ret; [|done].
    destruct (Hfailed eq_refl) as (i & b & e & Hi).
    by specialize (Hnone i b (Some e) Hi).
Qed.

(** X20: when no write to the connection fails, every payload that can be
    built is written, in the order received; a payload that cannot be
    built is skipped, and the payloads after it are still written. *)
Theorem drainQueue_all_written received closed outcomes :
  Forall (fun o => o = None) outcomes →
  writesOf (drain received closed outcomes).1
    = (fun buf => (buf, None)) <$> msgs received.
Proof.
  intros Hok. unfold drainQueue.
  assert (Hloop : writesOf (loop received outcomes).1
                  = (fun buf => (buf, None)) <$> msgs received).
  { revert outcomes Hok.
    induction received as [|pl received IH]; intros outcomes Hok; [done|].
    unfold messages. simpl. destruct (BuildMessage pl) as [buf|err].
    - assert (Hhead : mjoin (head outcomes) = None).
      { destruct Hok as [|o os Ho _]; [done|]. by subst o. }
      rewrite Hhead. specialize (IH (tail outcomes)).
      destruct (loop received (tail outcomes)) as [evs ret]. simpl in *.
      rewrite IH; [done|]. destruct Hok; [done|]. done.
    - specialize (IH outcomes Hok).
      destruct (loop received outcomes) as [evs ret]. simpl in *.
      by rewrite IH. }
  destruct (loop received outcomes) as [evs ret]. simpl in *.
  destruct (ret || closed); simpl; [|done].
  by rewrite writesOf_app, app_nil_r.
Qed.

End MonitorProperties.

(** ** The further properties at concrete inputs *)

Section FurtherWitnesses.

Import Scenario Examples.

Local Abbreviation OnChange :=
  (OnIPIdentityCacheChange (source := source) NewKey).
Local Abbreviation gc :=
  (garbageCollect KeyString FromKVStore FromAgentLocal dumpOrder rangeOrder).
Local Abbreviation stale := (isStale KeyString FromKVStore FromAgentLocal).

Lemma dumpOrder_sound (m : gmap Key RemoteEndpointInfo) kv :
  kv ∈ dumpOrder m → kv ∈ map_to_list m.
Proof. done. Qed.

Lemma rangeOrder_sound (m : gmap string Key) sk :
  sk ∈ rangeOrder m → sk ∈ map_to_list m.
Proof. done. Qed.

Lemma dumpOrder_complete (m : gmap Key RemoteEndpointInfo) :
  dumpOrder m ≡ₚ map_to_list m.
Proof. done. Qed.

Lemma rangeOrder_complete (m : gmap string Key) :
  rangeOrder m ≡ₚ map_to_list m.
Proof. done. Qed.

Lemma threeEntries_distinctPrefixes :
  distinctPrefixes KeyString (bpfMap staleWorld).
Proof. apply (bool_decide_unpack _). vm_compute. exact I. Qed.

(** The upsert of 10.0.0.0/24 leaves the entry of 10.0.1.0/24 alone. *)
Lemma listener_touches_one_key_witness :
  key1 ≠ NewKey (net.IPNet_IP cidr0) (net.IPNet_Mask cidr0)
  ∧ bpfMap (OnChange Upsert cidr0 None remoteHost None 1000%Z
              unknownSourceWorld) !! key1
    = bpfMap unknownSourceWorld !! key1.
Proof.
  assert (Hne : key1 ≠ NewKey (net.IPNet_IP cidr0) (net.IPNet_Mask cidr0)).
  { intros Heq. vm_compute in Heq. discriminate Heq. }
  split; [exact Hne|].
  exact (listener_touches_one_key NewKey Upsert cidr0 None remoteHost None
           1000%Z unknownSourceWorld key1 Hne).
Defined.

(** The upsert of Scenario A into an empty map, then its delete. *)
Lemma upsert_then_delete_witness :
  mjoin (head (faults emptyWorld)) = None
  ∧ mjoin (head (tail (faults emptyWorld))) = None
  ∧ bpfMap (OnChange Delete cidr0 None None None 0%Z
              (OnChange Upsert cidr0 None remoteHost None 1000%Z emptyWorld))
    = bpfMap emptyWorld.
Proof.
  assert (H1 : mjoin (head (faults emptyWorld)) = None) by reflexivity.
  assert (H2 : mjoin (head (tail (faults emptyWorld))) = None)
    by reflexivity.
  split; [exact H1|]. split; [exact H2|].
  apply (upsert_then_delete NewKey cidr0 None remoteHost None 1000%Z
           None None None 0%Z emptyWorld H1 H2).
  reflexivity.
Defined.

(** The upserts of 10.0.0.0/24 and of 10.0.1.0/24, in either order. *)
Lemma upserts_commute_witness :
  NewKey (net.IPNet_IP cidr0) (net.IPNet_Mask cidr0)
    ≠ NewKey (net.IPNet_IP cidr1) (net.IPNet_Mask cidr1)
  ∧ mjoin (head (faults emptyWorld)) = None
  ∧ mjoin (head (tail (faults emptyWorld))) = None
  ∧ bpfMap (OnChange Upsert cidr1 None localHost None 1001%Z
              (OnChange Upsert cidr0 None remoteHost None 1000%Z emptyWorld))
    = bpfMap (OnChange Upsert cidr0 None remoteHost None 1000%Z
                (OnChange Upsert cidr1 None localHost None 1001%Z
                   emptyWorld)).
Proof.
  assert (Hne : NewKey (net.IPNet_IP cidr0) (net.IPNet_Mask cidr0)
                ≠ NewKey (net.IPNet_IP cidr1) (net.IPNet_Mask cidr1)).
  { intros Heq. vm_compute in Heq. discriminate Heq. }
  assert (H1 : mjoin (head (faults emptyWorld)) = None) by reflexivity.
  assert (H2 : mjoin (head (tail (faults emptyWorld))) = None)
    by reflexivity.
  split; [exact Hne|]. split; [exact H1|]. split; [exact H2|].
  exact (upserts_commute NewKey cidr0 cidr1 None remoteHost None 1000%Z
           None localHost None 1001%Z emptyWorld Hne H1 H2).
Defined.

(** 203.0.113.5 in its 16-byte form, and the node's own address. *)
Lemma upsert_ipv4_mapped_host_witness :
  length [xc6; x33; x64; x01] = 4
  ∧ OnChange Upsert cidr0 None
      (Some (net.v4InV6Prefix ++ [xc6; x33; x64; x01])) None 1000%Z emptyWorld
    = OnChange Upsert cidr0 None (Some [xc6; x33; x64; x01]) None 1000%Z
        emptyWorld
  ∧ TunnelEndpoint
      (upsertValue (GetExternalIPv4 emptyWorld)
         (Some [xc6; x33; x64; x01]) 1000%Z)
    = zeroIPv4.
Proof.
  assert (Hlen : length [xc6; x33; x64; x01] = 4) by reflexivity.
  split; [exact Hlen|].
  destruct (upsert_ipv4_mapped_host NewKey cidr0 None None 1000%Z emptyWorld
              [xc6; x33; x64; x01] Hlen) as [Hsame Hlocal].
  split; [exact Hsame|]. apply Hlocal. left. reflexivity.
Defined.

(** In the sweep over the three entries of which the cache knows one,
    10.0.0.0/24 is deleted, and is stale. *)
Lemma sweep_deletes_only_stale_witness :
  key0 ∈ deletesOf (eventsAfter (trace mixedWorld) (trace (gc mixedWorld).1))
  ∧ is_Some (bpfMap mixedWorld !! key0)
  ∧ stale (LookupByPrefixRLocked mixedWorld) key0 = true.
Proof.
  assert (Hin : key0 ∈ deletesOf (eventsAfter (trace mixedWorld)
                                    (trace (gc mixedWorld).1))).
  { vm_compute. right. left. }
  split; [exact Hin|].
  exact (sweep_deletes_only_stale KeyString FromKVStore FromAgentLocal
           dumpOrder rangeOrder mixedWorld key0
           dumpOrder_sound rangeOrder_sound Hin).
Defined.

(** The same sweep keeps 10.0.1.0/24, which the cache knows. *)
Lemma sweep_keeps_entries_not_stale_witness :
  bpfMap mixedWorld !! key1 = Some (info 1001 remoteHost)
  ∧ (LookupByPrefixRLocked mixedWorld (KeyString key1)).2 = true
  ∧ bpfMap (gc mixedWorld).1 !! key1 = Some (info 1001 remoteHost).
Proof.
  assert (Hk : bpfMap mixedWorld !! key1 = Some (info 1001 remoteHost))
    by (vm_compute; reflexivity).
  assert (Hknown : (LookupByPrefixRLocked mixedWorld (KeyString key1)).2
                   = true) by (vm_compute; reflexivity).
  split; [exact Hk|]. split; [exact Hknown|].
  exact (sweep_keeps_entries_not_stale KeyString FromKVStore FromAgentLocal
           dumpOrder rangeOrder mixedWorld key1 (info 1001 remoteHost)
           dumpOrder_sound rangeOrder_sound Hk (or_introl Hknown)).
Defined.

(** Three entries the cache does not know, the lookups returning the zero
    source: the sweep deletes nothing. *)
Lemma sweep_without_stale_entries_witness :
  (∀ k v, bpfMap unknownSourceWorld !! k = Some v →
          (LookupByPrefixRLocked unknownSourceWorld (KeyString k)).2 = true
          ∨ (Source (LookupByPrefixRLocked unknownSourceWorld
                       (KeyString k)).1 ≠ FromKVStore
             ∧ Source (LookupByPrefixRLocked unknownSourceWorld
                         (KeyString k)).1 ≠ FromAgentLocal))
  ∧ deletesOf (eventsAfter (trace unknownSourceWorld)
                 (trace (gc unknownSourceWorld).1)) = []
  ∧ bpfMap (gc unknownSourceWorld).1 = bpfMap unknownSourceWorld.
Proof.
  assert (Hnone : ∀ k v, bpfMap unknownSourceWorld !! k = Some v →
    (LookupByPrefixRLocked unknownSourceWorld (KeyString k)).2 = true
    ∨ (Source (LookupByPrefixRLocked unknownSourceWorld
                 (KeyString k)).1 ≠ FromKVStore
       ∧ Source (LookupByPrefixRLocked unknownSourceWorld
                   (KeyString k)).1 ≠ FromAgentLocal)).
  { intros k v _. right. split; discriminate. }
  split; [exact Hnone|].
  exact (sweep_without_stale_entries KeyString FromKVStore FromAgentLocal
           dumpOrder rangeOrder unknownSourceWorld
           dumpOrder_sound rangeOrder_sound Hnone).
Defined.

(** The sweep over the three entries of which the cache knows one reports
    success. *)
Lemma sweep_success_removes_stale_witness :
  distinctPrefixes KeyString (bpfMap mixedWorld)
  ∧ (gc mixedWorld).2 = None
  ∧ bpfMap (gc mixedWorld).1 =
      filter (λ kv, stale (LookupByPrefixRLocked mixedWorld) kv.1 = false)
        (bpfMap mixedWorld).
Proof.
  split; [exact threeEntries_distinctPrefixes|].
  destruct (sweep_success_removes_stale KeyString FromKVStore FromAgentLocal
              dumpOrder rangeOrder mixedWorld
              dumpOrder_complete rangeOrder_complete
              threeEntries_distinctPrefixes) as [Hok Hmap].
  assert (Hnone : (gc mixedWorld).2 = None).
  { apply Hok. constructor. }
  split; [exact Hnone|exact (Hmap Hnone)].
Defined.

(** The sweep whose second delete fails, followed by a sweep the kernel
    fails nothing of. *)
Lemma sweep_repairs_failed_sweep_witness :
  distinctPrefixes KeyString (bpfMap staleWorld)
  ∧ (gc staleWorld).2
    = Some "error deleting key 10.0.2.0/24 from ipcache BPF map: EIO"
  ∧ (gc (gc staleWorld).1).2 = None
  ∧ bpfMap (gc (gc staleWorld).1).1 =
      filter (λ kv, stale (LookupByPrefixRLocked staleWorld) kv.1 = false)
        (bpfMap staleWorld).
Proof.
  assert (Hfirst : (gc staleWorld).2
    = Some "error deleting key 10.0.2.0/24 from ipcache BPF map: EIO")
    by (vm_compute; reflexivity).
  assert (Hsecond : (gc (gc staleWorld).1).2 = None)
    by (vm_compute; reflexivity).
  split; [exact threeEntries_distinctPrefixes|].
  split; [exact Hfirst|]. split; [exact Hsecond|].
  exact (sweep_repairs_failed_sweep KeyString FromKVStore FromAgentLocal
           dumpOrder rangeOrder staleWorld
           dumpOrder_complete rangeOrder_complete
           threeEntries_distinctPrefixes Hsecond).
Defined.

(** The successful sweep over the three entries, and the sweep after it. *)
Lemma sweep_idempotent_witness :
  distinctPrefixes KeyString (bpfMap mixedWorld)
  ∧ (gc mixedWorld).2 = None
  ∧ deletesOf (eventsAfter (trace (gc mixedWorld).1)
                 (trace (gc (gc mixedWorld).1).1)) = []
  ∧ bpfMap (gc (gc mixedWorld).1).1 = bpfMap (gc mixedWorld).1.
Proof.
  assert (Hok : (gc mixedWorld).2 = None) by (vm_compute; reflexivity).
  split; [exact threeEntries_distinctPrefixes|]. split; [exact Hok|].
  exact (sweep_idempotent KeyString FromKVStore FromAgentLocal
           dumpOrder rangeOrder mixedWorld
           dumpOrder_complete rangeOrder_complete
           threeEntries_distinctPrefixes Hok).
Defined.

(** The slice [world; cluster] against labels that hold the host label. *)
Lemma EntitySlice_Matches_selectors_witness :
  (∀ ctx, sliceMatches [] ctx = false)
  ∧ (∀ a b ctx,
       sliceMatches (a ++ b) ctx = sliceMatches a ctx || sliceMatches b ctx)
  ∧ api.EntitySlice_Matches sliceMatches mapping
      [api.EntityWorld; api.EntityCluster] ["reserved:host"]
    = sliceMatches
        (api.GetAsEndpointSelectors mapping
           [api.EntityWorld; api.EntityCluster])
        ["reserved:host"].
Proof.
  assert (Hnil : ∀ ctx, sliceMatches [] ctx = false) by reflexivity.
  assert (Happ : ∀ a b ctx,
    sliceMatches (a ++ b) ctx = sliceMatches a ctx || sliceMatches b ctx).
  { intros a b ctx. apply existsb_app. }
  split; [exact Hnil|]. split; [exact Happ|].
  exact (EntitySlice_Matches_selectors sliceMatches mapping
           [api.EntityWorld; api.EntityCluster] ["reserved:host"]
           Hnil Happ).
Defined.

(** The entity [World], with a capital, is none of the five. *)
Lemma unknown_entity_ignored_witness :
  ("World" ∉ [api.EntityAll; api.EntityWorld; api.EntityCluster;
              api.EntityHost; api.EntityInit])
  ∧ api.Entity_Matches sliceMatches mapping "World" ["reserved:world"]
    = false.
Proof.
  assert (Hnot : "World" ∉ [api.EntityAll; api.EntityWorld;
                            api.EntityCluster; api.EntityHost;
                            api.EntityInit]).
  { apply (bool_decide_unpack _). vm_compute. exact I. }
  split; [exact Hnot|].
  exact (proj1 (unknown_entity_ignored sliceMatches "any" "reserved:world"
                  "reserved:host" "reserved:init" "k8s:cluster"
                  "World" [] [] ["reserved:world"] Hnot)).
Defined.

(** A redirect with one old rule takes the two rules of the filter. *)
Lemma updateRules_replaces_witness :
  rangeRules (id filterRules) ≡ₚ map_to_list (id filterRules)
  ∧ proxy.rules (proxy.updateRules id rangeRules
                   (redirect (<["app=old" := 9]> ∅)) filterRules)
    = id filterRules.
Proof.
  assert (Hperm : rangeRules (id filterRules)
                  ≡ₚ map_to_list (id filterRules)) by reflexivity.
  split; [exact Hperm|].
  exact (f_equal proxy.rules
           (proj1 (updateRules_replaces id rangeRules
                     (redirect (<["app=old" := 9]> ∅)) filterRules Hperm))).
Defined.

(** Three payloads of which the second cannot be built, no write failing:
    the first and the third are written. *)
Lemma drainQueue_all_written_witness :
  Forall (fun o : option error => o = None) [None; None]
  ∧ monitor.writesOf
      (monitor.drainQueue BuildMessage IsDisconnected
         [Some [x01]; None; Some [x03]] false [None; None]).1
    = (fun buf => (buf, None))
        <$> monitor.messages BuildMessage [Some [x01]; None; Some [x03]].
Proof.
  assert (Hok : Forall (fun o : option error => o = None) [None; None])
    by (repeat constructor).
  split; [exact Hok|].
  exact (drainQueue_all_written BuildMessage IsDisconnected
           [Some [x01]; None; Some [x03]] false [None; None] Hok).
Defined.

End FurtherWitnesses.
